(** * Dictionary-compressed column (CoGaDB, [DictionaryCompressedColumn<T>])

    A shallow embedding of [src/compression/dictionary_compressed_column.hpp].

    The column keeps a [std::map<T, size_t>] (value -> number of rows holding
    it) and a [std::vector] of iterators into that map, one per row.  A map
    iterator is a pointer to a tree node, so the embedding has a store of
    nodes shared by all columns of the process; a column holds the addresses
    of the nodes its map owns and the addresses its rows point to.  Reading
    through the address of an erased node, erasing a node through a map that
    does not own it, and indexing a vector out of range with [operator[]] are
    undefined behaviour; [vector::at] out of range throws
    [std::out_of_range].

    The files are a map from file names to what a reader finds in them.
    Whether a file takes what [store] sends it is up to the file system, a
    parameter of [store]: the code checks none of its streams. *)

From Stdlib Require Import ZArith Ascii String.
From stdpp Require Import base list strings gmap.

Local Open Scope Z_scope.

(** ** The element type [T] *)

(** [std::map<T, size_t>] needs [operator<] on [T]. *)
Class Element (T : Type) := { less : T -> T -> bool }.

(** What the map requires of [operator<] (with equality as the induced
    equivalence): no value is less than itself, and of two different values
    one is less than the other. *)
Definition strict_total (T : Type) `{Element T} : Prop :=
  (forall a : T, less a a = false) /\
  (forall a b : T, less a b = false -> less b a = false -> a = b).

(** Two keys are equivalent for the map when neither is less than the other. *)
Definition equiv_key `{Element T} (a b : T) : bool :=
  negb (less a b) && negb (less b a).

(** ** [size_t] *)

Definition SIZE_MAX : Z := 2 ^ 64 - 1.
Definition wrap (z : Z) : Z := z mod 2 ^ 64.
Definition incr (c : Z) : Z := wrap (c + 1).
Definition decr (c : Z) : Z := wrap (c - 1).

(** ** Text streams *)

Definition newline : ascii := ascii_of_nat 10.
Definition space : ascii := ascii_of_nat 32.

(** [operator<<] and [operator>>] of [T] on a text stream.  [extract]
    returns the value read and the rest of the input, [None] when the
    extraction sets the fail bit. *)
Class Streamable (T : Type) := {
  put : T -> list ascii;
  extract : list ascii -> option (T * list ascii)
}.

(** An extraction only moves forward in its input. *)
Definition advancing (T : Type) `{Streamable T} : Prop :=
  forall (l : list ascii) (v : T) (r : list ascii),
    extract l = Some (v, r) -> (length r <= length l)%nat.

(** The value [v] is written as one token that reads back as [v]: after the
    separating space, the extraction returns [v] and stops at the end of
    line that follows. *)
Definition tokenizes {T : Type} `{Streamable T} (v : T) : Prop :=
  forall rest : list ascii,
    extract (space :: put v ++ newline :: rest) = Some (v, newline :: rest).

(** [std::isspace] in the "C" locale. *)
Definition is_space (c : ascii) : bool :=
  let n := nat_of_ascii c in
  Nat.eqb n 32 || (Nat.leb 9 n && Nat.leb n 13).

Definition is_digit (c : ascii) : bool :=
  let n := nat_of_ascii c in Nat.leb 48 n && Nat.leb n 57.

Definition digit_val (c : ascii) : Z := Z.of_nat (nat_of_ascii c) - 48.
Definition digit_of (d : Z) : ascii := ascii_of_nat (48 + Z.to_nat d).

(** What a formatted extraction does first: skip leading white space. *)
Fixpoint skip_ws (l : list ascii) : list ascii :=
  match l with
  | c :: l' => if is_space c then skip_ws l' else l
  | [] => []
  end.

(** The longest prefix of characters satisfying [p], and the rest. *)
Fixpoint span (p : ascii -> bool) (l : list ascii) : list ascii * list ascii :=
  match l with
  | c :: l' =>
      if p c then let '(a, b) := span p l' in (c :: a, b) else ([], l)
  | [] => ([], [])
  end.

Definition digits_value (ds : list ascii) : Z :=
  fold_left (fun acc c => 10 * acc + digit_val c) ds 0.

(** [out << n] for a [size_t]: the decimal digits, most significant first.
    A [size_t] has at most 20 of them. *)
Fixpoint digits_aux (fuel : nat) (n : Z) (acc : list ascii) : list ascii :=
  match fuel with
  | O => acc
  | S fuel' =>
      let acc' := digit_of (n mod 10) :: acc in
      if n / 10 =? 0 then acc' else digits_aux fuel' (n / 10) acc'
  end.

Definition put_size_t (n : Z) : list ascii := digits_aux 20 n [].

(** What the extraction of a number reads: white space, an optional sign,
    the longest run of decimal digits; [None] when there is no digit. *)
Definition scan_number (input : list ascii)
    : option (bool * Z * list ascii) :=
  let l := skip_ws input in
  let '(neg, l) :=
    match l with
    | c :: l' =>
        if Ascii.eqb c "-" then (true, l')
        else if Ascii.eqb c "+" then (false, l')
        else (false, l)
    | [] => (false, l)
    end in
  let '(ds, rest) := span is_digit l in
  match ds with
  | [] => None
  | _ => Some (neg, digits_value ds, rest)
  end.

(** [in >> n] for a [size_t].  No digit, or a magnitude above [SIZE_MAX],
    sets the fail bit; a minus sign negates modulo [2^64]. *)
Definition extract_size_t (input : list ascii) : option (Z * list ascii) :=
  match scan_number input with
  | Some (neg, n, rest) =>
      if n <=? SIZE_MAX then Some (if neg then wrap (- n) else n, rest)
      else None
  | None => None
  end.

(** [int] is 32 bits wide. *)
Definition INT_MIN : Z := - 2 ^ 31.
Definition INT_MAX : Z := 2 ^ 31 - 1.

(** [out << v] for an [int]. *)
Definition put_int (v : Z) : list ascii :=
  if v <? 0 then "-"%char :: digits_aux 10 (- v) [] else digits_aux 10 v [].

(** [in >> v] for an [int].  No digit, or a value outside the range of
    [int], sets the fail bit. *)
Definition extract_int (input : list ascii) : option (Z * list ascii) :=
  match scan_number input with
  | Some (neg, n, rest) =>
      let v := if neg then - n else n in
      if (INT_MIN <=? v) && (v <=? INT_MAX) then Some (v, rest) else None
  | None => None
  end.

(** ** Store, column, state *)

Abbreviation addr := nat (only parsing).
Abbreviation TID := nat (only parsing).

Inductive exn := out_of_range.

Section Column.
Context {T : Type} `{Element T}.

(** A node of a [std::map<T, size_t>]: [it->first] and [it->second]. *)
Record node := Node { first : T; second : Z }.

(** Cell [a] of the store is [Some n] while the node at address [a] is
    allocated and [None] once it has been erased; addresses are not reused. *)
Abbreviation heap := (list (option node)) (only parsing).

(** [_values] lists the addresses of the map's nodes in the map's traversal
    order (ascending keys); [_position] is the vector of iterators. *)
Record column := Column { _values : list addr; _position : list addr }.

Record state := State {
  mem : heap;
  disk : gmap string (list ascii);
  self : column
}.

(** [boost::any]: empty, holding a [T], or holding a value of another type
    (named by its [typeid]); the code never unwraps the last one. *)
Inductive any := any_empty | any_T (v : T) | any_other (type_name : string).

(** ** Outcomes *)

Inductive result (A : Type) :=
| Ok (a : A) (s : state)
| Throw (e : exn) (s : state)
| UB.
Arguments Ok {A} a s.
Arguments Throw {A} e s.
Arguments UB {A}.

Definition M (A : Type) := state -> result A.

Definition ret {A} (a : A) : M A := fun s => Ok a s.

Definition bind {A B} (m : M A) (k : A -> M B) : M B :=
  fun s => match m s with
           | Ok a s' => k a s'
           | Throw e s' => Throw e s'
           | UB => UB
           end.

Definition throw {A} (e : exn) : M A := fun s => Throw e s.
Definition undefined {A} : M A := fun _ => UB.

Notation "x <- m ;; k" := (bind m (fun x => k))
  (at level 100, m at next level, right associativity).
Notation "m ;;; k" := (bind m (fun _ => k))
  (at level 100, right associativity).

Definition with_mem (f : heap -> heap) : M unit :=
  fun s => Ok tt (State (f (mem s)) (disk s) (self s)).
Definition with_values (f : list addr -> list addr) : M unit :=
  fun s => Ok tt (State (mem s) (disk s)
                    (Column (f (_values (self s))) (_position (self s)))).
Definition with_position (f : list addr -> list addr) : M unit :=
  fun s => Ok tt (State (mem s) (disk s)
                    (Column (_values (self s)) (f (_position (self s))))).

(** ** Nodes *)

Definition live (h : heap) (a : addr) : option node := mjoin (h !! a).

(** [*it] *)
Definition deref (a : addr) : M node :=
  fun s => match live (mem s) a with
           | Some n => Ok n s
           | None => UB
           end.

(** [it->second = c] *)
Definition set_second (a : addr) (c : Z) : M unit :=
  n <- deref a ;;
  with_mem (fun h => <[a := Some (Node (first n) c)]> h).

Definition alloc (n : node) : M addr :=
  fun s => Ok (length (mem s)) (State (mem s ++ [Some n]) (disk s) (self s)).

(** ** [std::map<T, size_t>] *)

Fixpoint find_from (v : T) (l : list addr) : M (option addr) :=
  match l with
  | [] => ret None
  | a :: l' =>
      n <- deref a ;;
      if equiv_key (first n) v then ret (Some a) else find_from v l'
  end.

(** [_values.find(v)]: [None] is [_values.end()]. *)
Definition map_find (v : T) : M (option addr) :=
  fun s => find_from v (_values (self s)) s.

(** Number of leading nodes whose key is less than [v]. *)
Fixpoint lower_bound (v : T) (l : list addr) : M nat :=
  match l with
  | [] => ret 0%nat
  | a :: l' =>
      n <- deref a ;;
      if less (first n) v then (i <- lower_bound v l' ;; ret (S i))
      else ret 0%nat
  end.

(** [_values.emplace(v, c)]: the iterator and whether a node was inserted. *)
Definition map_emplace (v : T) (c : Z) : M (addr * bool) :=
  it <- map_find v ;;
  match it with
  | Some a => ret (a, false)
  | None =>
      i <- (fun s => lower_bound v (_values (self s)) s) ;;
      a <- alloc (Node v c) ;;
      with_values (fun vs => take i vs ++ a :: drop i vs) ;;;
      ret (a, true)
  end.

(** [_values.erase(it)]: [it] must be a dereferenceable iterator of
    [_values]. *)
Definition map_erase (a : addr) : M unit :=
  fun s => if decide (a ∈ _values (self s)) then
             (deref a ;;;
              with_mem (fun h => <[a := None]> h) ;;;
              with_values (fun vs => filter (fun b => b <> a) vs)) s
           else undefined s.

Fixpoint free_all (l : list addr) : M unit :=
  match l with
  | [] => ret tt
  | a :: l' => deref a ;;; with_mem (fun h => <[a := None]> h) ;;; free_all l'
  end.

(** [_values.clear()] *)
Definition map_clear : M unit :=
  (fun s => free_all (_values (self s)) s) ;;;
  with_values (fun _ => []).

(** ** [std::vector<ValueReference>] *)

(** [_position.at(i)] *)
Definition vec_at (i : nat) : M addr :=
  fun s => match _position (self s) !! i with
           | Some a => ret a s
           | None => throw out_of_range s
           end.

(** [_position[i]] read *)
Definition vec_index (i : nat) : M addr :=
  fun s => match _position (self s) !! i with
           | Some a => ret a s
           | None => undefined s
           end.

(** [_position[i] = a] *)
Definition vec_assign (i : nat) (a : addr) : M unit :=
  fun s => if decide (i < length (_position (self s)))%nat
           then with_position (fun p => <[i := a]> p) s
           else undefined s.

Definition push_back (a : addr) : M unit :=
  with_position (fun p => p ++ [a]).

Definition pop_back : M unit :=
  fun s => match _position (self s) with
           | [] => undefined s
           | _ => with_position (fun p => take (length p - 1) p) s
           end.

Definition vec_size : M Z :=
  fun s => Ok (Z.of_nat (length (_position (self s)))) s.

(** ** The methods *)

(** [bool insert(const T& new_value)] *)
Definition insert (new_value : T) : M bool :=
  it <- map_find new_value ;;
  match it with
  | None =>
      pair <- map_emplace new_value 1 ;;
      push_back (fst pair) ;;;
      ret true
  | Some it =>
      n <- deref it ;;
      set_second it (incr (second n)) ;;;
      push_back it ;;;
      ret true
  end.

(** [bool insert(const boost::any& new_Value)] *)
Definition insert_any (new_Value : any) : M bool :=
  match new_Value with
  | any_empty => ret false
  | any_other _ => ret false
  | any_T value => insert value
  end.

(** [bool update(TID tid, const boost::any& new_value)] *)
Definition update (tid : TID) (new_value : any) : M bool :=
  match new_value with
  | any_empty => ret false
  | any_other _ => ret false
  | any_T value =>
      oldEntry <- vec_at tid ;;
      n <- deref oldEntry ;;
      set_second oldEntry (decr (second n)) ;;;
      (if decr (second n) =? 0 then map_erase oldEntry else ret tt) ;;;
      elem <- map_find value ;;
      match elem with
      | None =>
          pair <- map_emplace value 1 ;;
          vec_assign tid (fst pair)
      | Some elem =>
          n <- deref elem ;;
          set_second elem (incr (second n)) ;;;
          vec_assign tid elem
      end ;;;
      insert_any new_value
  end.

(** The loop of [remove]: [for (i = tid; i < size - 1; ++i)
    _position[i] = _position[i+1]], with [fuel] iterations left. *)
Fixpoint shift_left (fuel : nat) (i : nat) : M unit :=
  match fuel with
  | O => ret tt
  | S fuel' =>
      a <- vec_index (i + 1) ;;
      vec_assign i a ;;;
      shift_left fuel' (S i)
  end.

(** [bool remove(TID tid)]; the test [value_ref->second == 0] reads the
    count just written. *)
Definition remove (tid : TID) : M bool :=
  value_ref <- vec_at tid ;;
  n <- deref value_ref ;;
  set_second value_ref (decr (second n)) ;;;
  (if decr (second n) =? 0 then map_erase value_ref else ret tt) ;;;
  sz <- vec_size ;;
  shift_left (Z.to_nat (wrap (sz - 1) - Z.of_nat tid)) tid ;;;
  pop_back ;;;
  ret true.

(** [bool clearContent()] *)
Definition clearContent : M bool :=
  with_position (fun _ => []) ;;;
  map_clear ;;;
  ret true.

(** [const boost::any get(TID tid)] *)
Definition get (tid : TID) : M any :=
  entry <- vec_at tid ;;
  n <- deref entry ;;
  ret (any_T (first n)).

(** [size_t size() const] *)
Definition size (c : column) : nat := length (_position c).

(** [T& operator[](const int index)], read: [index] is converted to [TID],
    an unsigned type of [tid_bits] bits whose [typedef] is not in this
    file. *)
Definition subscript (tid_bits : Z) (index : Z) : M T :=
  entry <- vec_at (Z.to_nat (index mod 2 ^ tid_bits)) ;;
  n <- deref entry ;;
  ret (first n).

(** The copy constructor of [std::map]: a fresh node per node of the
    source, in the same order. *)
Fixpoint copy_nodes (l : list addr) : M (list addr) :=
  match l with
  | [] => ret []
  | a :: l' =>
      n <- deref a ;;
      a' <- alloc n ;;
      r <- copy_nodes l' ;;
      ret (a' :: r)
  end.

(** [const ColumnPtr copy() const]: a new column copy-constructed from
    [*this] with the implicit copy constructor, which copies [_values] as a
    map and [_position] as a vector of iterators, element by element. *)
Definition copy : M column :=
  fun s =>
    (vs <- copy_nodes (_values (self s)) ;;
     ret (Column vs (_position (self s)))) s.

(** [bool insert(InputIterator first, InputIterator last)] *)
Fixpoint insert_range (l : list T) : M bool :=
  match l with
  | [] => ret true
  | v :: l' => b <- insert v ;; if b then insert_range l' else ret false
  end.

(** [bool update(PositionListPtr tid, const boost::any& new_value)] *)
Fixpoint update_list (tids : list TID) (new_value : any) : M bool :=
  match tids with
  | [] => ret true
  | t :: tids' =>
      b <- update t new_value ;;
      if b then update_list tids' new_value else ret false
  end.

(** [bool remove(PositionListPtr tid)] *)
Fixpoint remove_list (tids : list TID) : M bool :=
  match tids with
  | [] => ret true
  | t :: tids' => b <- remove t ;; if b then remove_list tids' else ret false
  end.

(** ** The serializer *)

Context `{Streamable T}.

(** The local [std::map<T, size_t> value_map] of [store]; no iterator into
    it is kept, so it is a list of its pairs. *)
Definition value_map_t := list (T * Z).

Fixpoint vm_find (k : T) (vm : value_map_t) : option Z :=
  match vm with
  | [] => None
  | (k', i) :: vm' => if equiv_key k' k then Some i else vm_find k vm'
  end.

(** [value_map.emplace(k, i)] *)
Definition vm_emplace (k : T) (i : Z) (vm : value_map_t) : value_map_t :=
  match vm_find k vm with
  | Some _ => vm
  | None => vm ++ [(k, i)]
  end.

(** [value_map[k]]: a missing key is inserted with the value [0]. *)
Definition vm_index (k : T) (vm : value_map_t) : Z * value_map_t :=
  match vm_find k vm with
  | Some i => (i, vm)
  | None => (0, vm ++ [(k, 0)])
  end.

(** The first loop of [store], over the nodes of [_values] from [it] on:
    the text written so far, the ordinal [i] and [value_map]. *)
Fixpoint store_values (its : list addr) (i : Z) (out : list ascii)
    (vm : value_map_t) : M (list ascii * value_map_t) :=
  match its with
  | [] => ret (out, vm)
  | it :: its' =>
      n <- deref it ;;
      store_values its' (incr i)
        (out ++ put_size_t (second n) ++ [space] ++ put (first n) ++ [newline])
        (vm_emplace (first n) i vm)
  end.

(** The second loop of [store], over [_position]. *)
Fixpoint store_position (its : list addr) (out : list ascii)
    (vm : value_map_t) : M (list ascii) :=
  match its with
  | [] => ret out
  | ref :: its' =>
      n <- deref ref ;;
      let '(k, vm') := vm_index (first n) vm in
      store_position its' (out ++ put_size_t k ++ [newline]) vm'
  end.

(** The name under which the file system knows [path]: the streams open
    [path.c_str()], the characters before the first NUL. *)
Fixpoint file_name (path : string) : string :=
  match path with
  | EmptyString => EmptyString
  | String c rest =>
      if Ascii.eqb c zero then EmptyString else String c (file_name rest)
  end.


(** The file system as an [std::ofstream] meets it.  [written name text] is
    what an [std::ifstream] opened on [name] reads after an [std::ofstream]
    was opened on [name], sent [text] and closed; it is [None] when the file
    is left as it was, the stream not having opened (a missing directory, no
    permission).  [store] checks none of its streams, so it does not see
    the difference. *)
Variable written : string -> list ascii -> option (list ascii).

(** The file of [path] takes what is written to it in full. *)
Definition writable (path : string) : Prop :=
  forall text, written (file_name path) text = Some text.

(** The file of [path] is never opened for writing. *)
Definition unwritable (path : string) : Prop :=
  forall text, written (file_name path) text = None.

Definition fs_write (name : string) (text : list ascii)
    (d : gmap string (list ascii)) : gmap string (list ascii) :=
  match written name text with
  | Some t => <[name := t]> d
  | None => d
  end.

(** An [std::ofstream] opened on [path], written and closed. *)
Definition write_file (path : string) (text : list ascii) : M unit :=
  fun s => Ok tt (State (mem s) (fs_write (file_name path) text (disk s))
                        (self s)).

(** An [std::ifstream] opened on [path]: its content, or nothing to read
    when the file cannot be opened. *)
Definition read_file (path : string) : M (list ascii) :=
  fun s => Ok (default [] (disk s !! file_name path)) s.

(** [bool store(const std::string& path)] *)
Definition store (path : string) : M bool :=
  let values_path := path +:+ "_values" in
  r <- (fun s => store_values (_values (self s)) 0 [] [] s) ;;
  write_file values_path (fst r) ;;;
  let position_path := path +:+ "_position" in
  out <- (fun s => store_position (_position (self s)) [] (snd r) s) ;;
  write_file position_path out ;;;
  ret true.

(** [while (values_instream >> occuring >> value)
      refs.push_back(_values.emplace(value, occuring).first)] *)
Fixpoint load_values (fuel : nat) (input : list ascii) (refs : list addr)
    : M (list addr) :=
  match fuel with
  | O => ret refs
  | S fuel' =>
      match extract_size_t input with
      | None => ret refs
      | Some (occuring, input') =>
          match extract input' with
          | None => ret refs
          | Some (value, input'') =>
              pair <- map_emplace value occuring ;;
              load_values fuel' input'' (refs ++ [fst pair])
          end
      end
  end.

(** [while (pos_instream >> pointer) _position.push_back(refs[pointer])] *)
Fixpoint load_position (fuel : nat) (input : list ascii) (refs : list addr)
    : M unit :=
  match fuel with
  | O => ret tt
  | S fuel' =>
      match extract_size_t input with
      | None => ret tt
      | Some (pointer, input') =>
          match refs !! Z.to_nat pointer with
          | None => undefined
          | Some ref => push_back ref ;;; load_position fuel' input' refs
          end
      end
  end.

(** [bool load(const std::string& path)].  Every iteration of either loop
    consumes at least one character, so the length of the input bounds the
    number of iterations. *)
Definition load (path : string) : M bool :=
  let position_path := path +:+ "_position" in
  let values_path := path +:+ "_values" in
  pos_in <- read_file position_path ;;
  values_in <- read_file values_path ;;
  refs <- load_values (S (length values_in)) values_in [] ;;
  load_position (S (length pos_in)) pos_in refs ;;;
  ret true.

(** ** Observations *)

(** The value of row [tid], when [get] returns one. *)
Definition row (s : state) (tid : TID) : option T :=
  match get tid s with
  | Ok (any_T v) _ => Some v
  | _ => None
  end.

(** The count of the dictionary entry for [v], if there is one. *)
Definition entry_count (s : state) (v : T) : option Z :=
  match map_find v s with
  | Ok (Some a) _ => second <$> live (mem s) a
  | _ => None
  end.

(** The values of all rows, in TID order. *)
Definition rows (s : state) : list (option T) :=
  (fun a => first <$> live (mem s) a) <$> _position (self s).

(** The counts of the dictionary, in the order of its entries. *)
Definition counts (s : state) : list Z :=
  omap (fun a => second <$> live (mem s) a) (_values (self s)).

(** How many rows hold the value [v], values compared as the map compares
    its keys. *)
Definition holding (s : state) (v : T) : nat :=
  length (filter (fun r => from_option (fun w => equiv_key w v) false r = true)
            (rows s)).

(** The TIDs of a list are each in range when their turn comes, the column
    having [n] rows at first and one row less after each removal. *)
Fixpoint in_turn (n : nat) (tids : list TID) : Prop :=
  match tids with
  | [] => True
  | t :: tids' => (t < n)%nat /\ in_turn (n - 1) tids'
  end.

(** The TIDs of a list are each in range when their turn comes, the column
    having [n] rows at first and one row more after each update. *)
Fixpoint in_turn_growing (n : nat) (tids : list TID) : Prop :=
  match tids with
  | [] => True
  | t :: tids' => (t < n)%nat /\ in_turn_growing (S n) tids'
  end.

(** How many slots of the vector [p] hold the address [a]. *)
Definition citing (p : list addr) (a : addr) : nat :=
  length (filter (fun b => b = a) p).

(** ** Calls in sequence *)

Inductive op :=
| op_insert (v : T)
| op_insert_any (a : any)
| op_insert_range (l : list T)
| op_update (tid : TID) (a : any)
| op_update_list (tids : list TID) (a : any)
| op_remove (tid : TID)
| op_remove_list (tids : list TID)
| op_clear.

Definition exec (o : op) : M bool :=
  match o with
  | op_insert v => insert v
  | op_insert_any a => insert_any a
  | op_insert_range l => insert_range l
  | op_update tid a => update tid a
  | op_update_list tids a => update_list tids a
  | op_remove tid => remove tid
  | op_remove_list tids => remove_list tids
  | op_clear => clearContent
  end.

(** How many single-row [insert] and [update] calls an operation makes at
    most; each of them lengthens [_position] by one slot at most. *)
Definition calls (o : op) : nat :=
  match o with
  | op_insert _ | op_insert_any _ | op_update _ _ => 1
  | op_insert_range l => length l
  | op_update_list tids _ => length tids
  | op_remove _ | op_remove_list _ | op_clear => 0
  end.

Definition total_calls (ops : list op) : nat := sum_list (calls <$> ops).

(** The state after the calls [ops]; a caller that catches an exception goes
    on with the column as the throw left it.  [None] when a call has
    undefined behaviour. *)
Fixpoint run_ops (ops : list op) (s : state) : option state :=
  match ops with
  | [] => Some s
  | o :: ops' =>
      match exec o s with
      | Ok _ s' => run_ops ops' s'
      | Throw _ s' => run_ops ops' s'
      | UB => None
      end
  end.

(** ** Invariants *)

(** The map is a map: its nodes are distinct and allocated, their keys
    differ. *)
Definition map_ok (h : heap) (vs : list addr) : Prop :=
  NoDup vs /\
  (forall a, a ∈ vs -> is_Some (live h a)) /\
  (forall a b n m, a ∈ vs -> b ∈ vs -> live h a = Some n ->
     live h b = Some m -> first n = first m -> a = b).

(** The map is a map and the rows point into it: its nodes are distinct and
    allocated, their keys differ, every row holds one of them. *)
Definition sound_raw (h : heap) (vs p : list addr) : Prop :=
  NoDup vs /\
  (forall a, a ∈ vs -> is_Some (live h a)) /\
  (forall a b n m, a ∈ vs -> b ∈ vs -> live h a = Some n ->
     live h b = Some m -> first n = first m -> a = b) /\
  (forall a, a ∈ p -> a ∈ vs).

(** Every count is the number of rows pointing to the node, and is not 0. *)
Definition counted_raw (h : heap) (vs p : list addr) : Prop :=
  forall a n, a ∈ vs -> live h a = Some n ->
    second n = Z.of_nat (citing p a) /\ (0 < citing p a)%nat.

Definition inv_raw (h : heap) (vs p : list addr) : Prop :=
  sound_raw h vs p /\ counted_raw h vs p /\ Z.of_nat (length p) <= SIZE_MAX.

(** The dictionary [(h, vs)] takes one more row for the value [v]: the count
    of its node is incremented, or a node with count 1 is linked in. *)
Inductive acquired (h : heap) (vs : list addr) (v : T)
    : heap -> list addr -> addr -> Prop :=
| acquired_old a n :
    a ∈ vs -> live h a = Some n -> first n = v ->
    acquired h vs v (<[a := Some (Node (first n) (incr (second n)))]> h) vs a
| acquired_new i :
    (forall a n, a ∈ vs -> live h a = Some n -> first n <> v) ->
    (i <= length vs)%nat ->
    acquired h vs v (h ++ [Some (Node v 1)])
      (take i vs ++ length h :: drop i vs) (length h).

(** The dictionary [(h, vs)] gives up one row of the node at [a]: its count
    is decremented, and the node is erased when that makes it 0. *)
Inductive released (h : heap) (vs : list addr) (a : addr)
    : heap -> list addr -> Prop :=
| released_keep n :
    live h a = Some n -> decr (second n) <> 0 ->
    released h vs a (<[a := Some (Node (first n) (decr (second n)))]> h) vs
| released_erase n :
    live h a = Some n -> decr (second n) = 0 ->
    released h vs a (<[a := None]> h) (filter (fun b => b <> a) vs).

(** The call returns to its caller, with a value. *)
Definition returns {A} (r : result A) : Prop :=
  exists x s, r = Ok x s.

Definition sound (s : state) : Prop :=
  sound_raw (mem s) (_values (self s)) (_position (self s)).

Definition inv (s : state) : Prop :=
  inv_raw (mem s) (_values (self s)) (_position (self s)).

(** ** The two files, as text *)

Definition values_line (n : node) : list ascii :=
  put_size_t (second n) ++ [space] ++ put (first n) ++ [newline].

Definition position_line (k : Z) : list ascii := put_size_t k ++ [newline].


(** What the first loop of [load] extracts from its input. *)
Fixpoint parse_values (fuel : nat) (input : list ascii) : list (Z * T) :=
  match fuel with
  | O => []
  | S fuel' =>
      match extract_size_t input with
      | None => []
      | Some (occuring, input') =>
          match extract input' with
          | None => []
          | Some (value, input'') =>
              (occuring, value) :: parse_values fuel' input''
          end
      end
  end.

(** What the second loop of [load] extracts from its input. *)
Fixpoint parse_ordinals (fuel : nat) (input : list ascii) : list Z :=
  match fuel with
  | O => []
  | S fuel' =>
      match extract_size_t input with
      | None => []
      | Some (pointer, input') => pointer :: parse_ordinals fuel' input'
      end
  end.

Definition file_values (s : state) (path : string) : list (Z * T) :=
  let text := default [] (disk s !! file_name (path +:+ "_values")) in
  parse_values (S (length text)) text.

Definition file_ordinals (s : state) (path : string) : list Z :=
  let text := default [] (disk s !! file_name (path +:+ "_position")) in
  parse_ordinals (S (length text)) text.

End Column.

Arguments node T : clear implicits.
Arguments state T : clear implicits.
Arguments any T : clear implicits.
Arguments result T A : clear implicits.
Arguments M T A : clear implicits.
Arguments Ok {T A} a s.
Arguments Throw {T A} e s.
Arguments UB {T A}.

Abbreviation heap T := (list (option (node T))) (only parsing).

Notation "x <- m ;; k" := (bind m (fun x => k))
  (at level 100, m at next level, right associativity).
Notation "m ;;; k" := (bind m (fun _ => k))
  (at level 100, right associativity).

(** ** Instances *)

(** [T = int] *)
#[export] Instance int_element : Element Z := {| less := Z.ltb |}.

#[export] Instance int_streamable : Streamable Z :=
  {| put := put_int; extract := extract_int |}.

Definition empty_state {T} : state T := State [] ∅ (Column [] []).

(** [T = std::string]: [operator<] compares character by character, a
    proper prefix being less. *)
Fixpoint string_less (a b : list ascii) : bool :=
  match a, b with
  | _, [] => false
  | [], _ :: _ => true
  | x :: a', y :: b' =>
      if Ascii.ltb x y then true
      else if Ascii.ltb y x then false
      else string_less a' b'
  end.

#[export] Instance string_element : Element (list ascii) :=
  {| less := string_less |}.

(** [in >> s] for a [std::string]: white space, then the characters up to
    the next white space; no character sets the fail bit. *)
Definition extract_string (input : list ascii)
    : option (list ascii * list ascii) :=
  let '(tok, rest) := span (fun c => negb (is_space c)) (skip_ws input) in
  match tok with
  | [] => None
  | _ => Some (tok, rest)
  end.

#[export] Instance string_streamable : Streamable (list ascii) :=
  {| put := fun s => s; extract := extract_string |}.

Definition str (s : string) : list ascii := list_ascii_of_string s.

(** ** Example columns *)

(** The rows of the first scenario of the specification. *)
Definition fruit : list (list ascii) :=
  map str ["apple"; "banana"; "apple"; "cherry"; "banana"; "apple"]%string.

(** The column after the inserts of [fruit] into the empty column. *)
Definition fruit_state : state (list ascii) :=
  State [Some (Node (str "apple") 3); Some (Node (str "banana") 2);
         Some (Node (str "cherry") 1)]
        ∅ (Column [0; 1; 2] [0; 1; 0; 2; 1; 0])%nat.

(** An [int] column holding the single row 7. *)
Definition seven_state : state Z :=
  State [Some (Node 7 1)] ∅ (Column [0%nat] [0%nat]).

(** [seven_state] after [copy()], and the column [copy()] returns: a map
    with a node of its own at address 1, and the vector of the source. *)
Definition seven_copied : state Z :=
  State [Some (Node 7 1); Some (Node 7 1)] ∅ (Column [0%nat] [0%nat]).
Definition seven_copy : column := Column [1%nat] [0%nat].

(** Two files for [load]: "apple" with a count of 9 and "date" with 1;
    the rows date, apple, date. *)
Definition fruit_files : gmap string (list ascii) :=
  <["/tmp/col_position"%string := flat_map position_line [1; 0; 1]]>
    (<["/tmp/col_values"%string :=
         flat_map values_line [Node (str "apple") 9; Node (str "date") 1]]> ∅).

(** The column of scenario 1 with those files on disk. *)
Definition fruit_with_files : state (list ascii) :=
  State (mem fruit_state) fruit_files (self fruit_state).

(** The column of scenario 1 with a [_position] file whose only ordinal
    is 4, and no [_values] file. *)
Definition fruit_with_bad_ordinal : state (list ascii) :=
  State (mem fruit_state)
        (<["/tmp/col_position"%string := flat_map position_line [4]]> ∅)
        (self fruit_state).

(** A file system that takes every write. *)
Definition takes_all (name : string) (text : list ascii)
    : option (list ascii) := Some text.

(** A file system without the directory [/nonexistent_dir]: a stream on a
    name in it does not open. *)
Definition no_such_dir (name : string) (text : list ascii)
    : option (list ascii) :=
  if String.prefix "/nonexistent_dir/" name then None else Some text.


(** A sequence of calls on an [int] column, two of them out of range. *)
Definition some_calls : list (op (T:=Z)) :=
  [op_insert 7; op_insert 7; op_update 0 (any_T 8); op_remove 1;
   op_insert_any any_empty; op_remove 9; op_update 5 (any_T 1);
   op_insert_range [4; 8; 4]; op_update_list [0; 2; 40]%nat (any_T 4);
   op_remove_list [0; 0; 30]%nat; op_insert_any (any_T 8); op_clear;
   op_insert 3].

(** * Proofs *)

(** ** Text *)

(** *** Decimal text *)

Lemma digit_of_spec d :
  0 <= d < 10 ->
  digit_val (digit_of d) = d /\ is_digit (digit_of d) = true.
Proof.
  intros Hd.
  assert (d = 0 \/ d = 1 \/ d = 2 \/ d = 3 \/ d = 4 \/ d = 5 \/ d = 6 \/
          d = 7 \/ d = 8 \/ d = 9) as Hcases by lia.
  repeat (destruct Hcases as [-> | Hcases]; [by vm_compute|]).
  subst d. by vm_compute.
Qed.

Lemma is_digit_range c :
  is_digit c = true -> (48 <= nat_of_ascii c <= 57)%nat.
Proof.
  unfold is_digit. intros [H1 H2]%andb_prop.
  apply Nat.leb_le in H1, H2. lia.
Qed.

Lemma is_digit_not_space c : is_digit c = true -> is_space c = false.
Proof.
  intros Hc%is_digit_range. unfold is_space.
  apply orb_false_iff. split.
  - apply Nat.eqb_neq. lia.
  - apply andb_false_iff. right. apply Nat.leb_gt. lia.
Qed.

Lemma is_digit_not_sign c :
  is_digit c = true -> Ascii.eqb c "-" = false /\ Ascii.eqb c "+" = false.
Proof.
  intros Hc%is_digit_range.
  split; apply Ascii.eqb_neq; intros ->; vm_compute in Hc; lia.
Qed.

Lemma digits_aux_acc fuel : forall n acc,
  digits_aux fuel n acc = digits_aux fuel n [] ++ acc.
Proof.
  induction fuel as [|fuel IH]; intros n acc; simpl; [done|].
  destruct (n / 10 =? 0); [done|].
  rewrite (IH _ (_ :: acc)), (IH _ [_]). by rewrite <- app_assoc.
Qed.

Lemma digits_value_snoc ds c :
  digits_value (ds ++ [c]) = 10 * digits_value ds + digit_val c.
Proof. unfold digits_value. by rewrite fold_left_app. Qed.

Lemma digits_aux_spec fuel : forall n,
  0 <= n < 10 ^ Z.of_nat (S fuel) ->
  digits_value (digits_aux (S fuel) n []) = n /\
  Forall (fun c => is_digit c = true) (digits_aux (S fuel) n []) /\
  digits_aux (S fuel) n [] <> [].
Proof.
  induction fuel as [|fuel IH]; intros n Hn.
  - assert (Hmod : 0 <= n mod 10 < 10) by (apply Z.mod_pos_bound; lia).
    destruct (digit_of_spec _ Hmod) as [Hval Hdig].
    change (10 ^ Z.of_nat 1) with 10 in Hn.
    simpl digits_aux. rewrite Z.div_small by lia. simpl.
    rewrite Z.mod_small in * by lia. repeat split.
    + unfold digits_value. simpl. lia.
    + by constructor.
    + done.
  - assert (Hmod : 0 <= n mod 10 < 10) by (apply Z.mod_pos_bound; lia).
    destruct (digit_of_spec _ Hmod) as [Hval Hdig].
    remember (S fuel) as f eqn:Hf. simpl digits_aux.
    destruct (n / 10 =? 0) eqn:E.
    + apply Z.eqb_eq in E. repeat split.
      * unfold digits_value. simpl. rewrite Hval.
        pose proof (Z.div_mod n 10). lia.
      * by constructor.
      * done.
    + apply Z.eqb_neq in E. rewrite digits_aux_acc.
      assert (Hdiv : 0 <= n / 10 < 10 ^ Z.of_nat f).
      { split; [apply Z.div_pos; lia|].
        apply Z.div_lt_upper_bound; [lia|].
        rewrite Nat2Z.inj_succ, Z.pow_succ_r in Hn; lia. }
      destruct (IH _ Hdiv) as (Hv & Hall & Hne). repeat split.
      * rewrite digits_value_snoc, Hv, Hval.
        pose proof (Z.div_mod n 10). lia.
      * apply Forall_app. split; [done|]. by constructor.
      * intros Heq. by apply app_eq_nil in Heq as [_ ?].
Qed.


Lemma span_all p (l : list ascii) x rest :
  Forall (fun c => p c = true) l -> p x = false ->
  span p (l ++ x :: rest) = (l, x :: rest).
Proof.
  intros Hall Hx. induction Hall as [|c l Hc Hall IH]; simpl.
  - by rewrite Hx.
  - by rewrite Hc, IH.
Qed.

Lemma scan_digits ds x rest :
  Forall (fun c => is_digit c = true) ds -> ds <> [] -> is_digit x = false ->
  scan_number (ds ++ x :: rest) = Some (false, digits_value ds, x :: rest).
Proof.
  intros Hall Hne Hx. unfold scan_number.
  destruct ds as [|c ds]; [done|].
  pose proof (Forall_inv Hall) as Hc. simpl in Hc.
  simpl skip_ws. rewrite (is_digit_not_space _ Hc).
  destruct (is_digit_not_sign _ Hc) as [-> ->].
  pose proof (span_all is_digit (c :: ds) x rest Hall Hx) as Hs.
  simpl app in *. cbv zeta. by rewrite Hs.
Qed.

Lemma scan_minus ds x rest :
  Forall (fun c => is_digit c = true) ds -> ds <> [] -> is_digit x = false ->
  scan_number ("-"%char :: ds ++ x :: rest)
  = Some (true, digits_value ds, x :: rest).
Proof.
  intros Hall Hne Hx. unfold scan_number.
  change (skip_ws ("-"%char :: ds ++ x :: rest))
    with ("-"%char :: ds ++ x :: rest).
  cbv beta iota zeta. rewrite Ascii.eqb_refl. cbv beta iota zeta.
  rewrite (span_all is_digit ds x rest Hall Hx). by destruct ds.
Qed.

Lemma scan_skip c l : is_space c = true -> scan_number (c :: l) = scan_number l.
Proof. intros Hc. unfold scan_number. simpl. by rewrite Hc. Qed.

Lemma skip_ws_length (l : list ascii) : (length (skip_ws l) <= length l)%nat.
Proof.
  induction l as [|c l IH]; simpl; [done|].
  destruct (is_space c); simpl; lia.
Qed.

Lemma span_length p (l a b : list ascii) :
  span p l = (a, b) -> length l = (length a + length b)%nat.
Proof.
  revert a b. induction l as [|c l IH]; simpl; intros a b Hs.
  - by inversion Hs.
  - destruct (p c).
    + destruct (span p l) as [a' b'] eqn:E. inversion Hs; subst.
      simpl. by rewrite (IH a' b).
    + by inversion Hs.
Qed.

Lemma scan_advances l neg n r :
  scan_number l = Some (neg, n, r) -> (length r < length l)%nat.
Proof.
  unfold scan_number. pose proof (skip_ws_length l) as Hws.
  destruct (skip_ws l) as [|c l'] eqn:E.
  - simpl. done.
  - assert (exists sg l'', (length l'' <= length (c :: l'))%nat /\
      (if Ascii.eqb c "-" then (true, l')
       else if Ascii.eqb c "+" then (false, l') else (false, c :: l'))
      = (sg, l'')) as (sg & l'' & Hl'' & ->).
    { destruct (Ascii.eqb c "-"); [eexists _, _; split; [|done]; simpl; lia|].
      destruct (Ascii.eqb c "+"); eexists _, _; (split; [|done]); simpl; lia. }
    destruct (span is_digit l'') as [ds rest] eqn:Es.
    apply span_length in Es. destruct ds as [|d ds]; [done|].
    intros [= _ _ <-]. simpl in *. lia.
Qed.



Lemma extract_size_t_advances l n r :
  extract_size_t l = Some (n, r) -> (length r < length l)%nat.
Proof.
  unfold extract_size_t.
  destruct (scan_number l) as [[[neg m] rest]|] eqn:E; [|done].
  destruct (m <=? SIZE_MAX); [|done]. intros [= _ <-].
  by eapply scan_advances.
Qed.

(** An [int] is written as one token. *)
Lemma int_tokenizes (v : Z) : INT_MIN <= v <= INT_MAX -> tokenizes v.
Proof.
  unfold INT_MIN, INT_MAX. intros Hv rest. simpl. unfold extract_int.
  rewrite scan_skip by done. unfold put_int.
  destruct (v <? 0) eqn:E.
  - apply Z.ltb_lt in E.
    destruct (digits_aux_spec 9 (- v)) as (Hval & Hall & Hne).
    { change (10 ^ Z.of_nat 10) with 10000000000. lia. }
    change (("-"%char :: digits_aux 10 (- v) []) ++ newline :: rest)
      with ("-"%char :: digits_aux 10 (- v) [] ++ newline :: rest).
    rewrite scan_minus by done. rewrite Hval, Z.opp_involutive.
    unfold INT_MIN, INT_MAX.
    rewrite (proj2 (Z.leb_le _ _)), (proj2 (Z.leb_le _ _)) by lia. done.
  - apply Z.ltb_ge in E.
    destruct (digits_aux_spec 9 v) as (Hval & Hall & Hne).
    { change (10 ^ Z.of_nat 10) with 10000000000. lia. }
    rewrite scan_digits by done. rewrite Hval.
    unfold INT_MIN, INT_MAX.
    rewrite (proj2 (Z.leb_le _ _)), (proj2 (Z.leb_le _ _)) by lia. done.
Qed.

(** ** The column *)

Section Facts.
Context {T : Type} `{Element T}.

(** [operator<] of [T] is a strict total order. *)
Hypothesis less_ok : strict_total T.

Implicit Types (h : heap T) (s : state T) (n : node T) (a b : addr)
  (vs p : list addr) (v : T).

Lemma bind_ok {A B} (m : M T A) (k : A -> M T B) s x s' :
  m s = Ok x s' -> (x <- m ;; k x) s = k x s'.
Proof. intros Hm. unfold bind. by rewrite Hm. Qed.

(** Run the first call of the program in the goal, by the equation [E]. *)
Tactic Notation "step" uconstr(E) := rewrite (bind_ok _ _ _ _ _ E).

Lemma equiv_key_eq (x y : T) :
  equiv_key x y = true <-> x = y.
Proof.
  pose proof less_ok as [Hirr Htot]. unfold equiv_key. split.
  - intros [Hxy Hyx]%andb_prop.
    apply Htot; by apply negb_true_iff.
  - intros ->. by rewrite Hirr.
Qed.

Lemma live_Some_lt h a n : live h a = Some n -> (a < length h)%nat.
Proof.
  unfold live. destruct (h !! a) eqn:E; [|done].
  intros _. by apply lookup_lt_Some in E.
Qed.

Lemma live_insert_eq h a x :
  (a < length h)%nat -> live (<[a := x]> h) a = x.
Proof. intros Hlt. unfold live. by rewrite list_lookup_insert_eq. Qed.

Lemma live_insert_ne h a b x : a <> b -> live (<[a := x]> h) b = live h b.
Proof. intros Hne. unfold live. by rewrite list_lookup_insert_ne. Qed.

Lemma live_app_old h x a : (a < length h)%nat -> live (h ++ [x]) a = live h a.
Proof. intros Hlt. unfold live. by rewrite lookup_app_l. Qed.

Lemma live_app_new h x : live (h ++ [x]) (length h) = x.
Proof.
  unfold live. rewrite lookup_app_r by lia.
  by rewrite Nat.sub_diag.
Qed.

Lemma live_length_None h : live h (length h) = None.
Proof. unfold live. by rewrite lookup_ge_None_2. Qed.

(** *** The map: well-formedness, [find], [emplace], [erase] *)

Lemma sound_raw_map_ok h vs p : sound_raw h vs p -> map_ok h vs.
Proof. intros (? & ? & ? & ?). by repeat split. Qed.

Lemma deref_live h d c a n :
  live h a = Some n -> deref a (State h d c) = Ok n (State h d c).
Proof. intros Hl. unfold deref. simpl. by rewrite Hl. Qed.

Lemma find_from_spec v l s :
  (forall a, a ∈ l -> is_Some (live (mem s) a)) ->
  exists r, find_from v l s = Ok r s /\
    match r with
    | Some a => a ∈ l /\ exists n, live (mem s) a = Some n /\ first n = v
    | None => forall a n, a ∈ l -> live (mem s) a = Some n -> first n <> v
    end.
Proof.
  induction l as [|a l IH]; intros Hlive; simpl.
  - exists None. split; [done|]. intros a n Ha. by apply elem_of_nil in Ha.
  - destruct (Hlive a) as [n Hn]; [left|].
    unfold bind, deref. rewrite Hn.
    destruct (equiv_key (first n) v) eqn:E.
    + exists (Some a). split; [done|]. split; [left|].
      exists n. split; [done|]. by apply equiv_key_eq.
    + destruct IH as (r & Hr & Hpost).
      { intros b Hb. apply Hlive. by right. }
      exists r. split; [done|]. destruct r as [b|].
      * destruct Hpost as [Hb Hn']. split; [by right | done].
      * intros b m [->|Hb]%elem_of_cons Hm.
        -- rewrite Hn in Hm. injection Hm as <-. intros Heq.
           apply equiv_key_eq in Heq. congruence.
        -- by eapply Hpost.
Qed.

Lemma lower_bound_spec v l s :
  (forall a, a ∈ l -> is_Some (live (mem s) a)) ->
  exists i, lower_bound v l s = Ok i s /\ (i <= length l)%nat.
Proof.
  induction l as [|a l IH]; intros Hlive; simpl.
  - exists 0%nat. split; [done | lia].
  - destruct (Hlive a) as [n Hn]; [left|].
    unfold bind, deref. rewrite Hn.
    destruct (less (first n) v).
    + destruct IH as (i & Hi & Hle).
      { intros b Hb. apply Hlive. by right. }
      rewrite Hi. exists (S i). split; [done | lia].
    + exists 0%nat. split; [done | lia].
Qed.

Lemma map_find_spec v h d vs p :
  map_ok h vs ->
  exists r, map_find v (State h d (Column vs p)) = Ok r (State h d (Column vs p)) /\
    match r with
    | Some a => a ∈ vs /\ exists n, live h a = Some n /\ first n = v
    | None => forall a n, a ∈ vs -> live h a = Some n -> first n <> v
    end.
Proof.
  intros (_ & Hlive & _). unfold map_find.
  by apply (find_from_spec v vs (State h d (Column vs p))).
Qed.

Lemma map_emplace_new v c h d vs p :
  map_ok h vs ->
  (forall a n, a ∈ vs -> live h a = Some n -> first n <> v) ->
  exists i, (i <= length vs)%nat /\
    map_emplace v c (State h d (Column vs p))
    = Ok (length h, true)
         (State (h ++ [Some (Node v c)]) d
                (Column (take i vs ++ length h :: drop i vs) p)).
Proof.
  intros Hok Habs.
  destruct (map_find_spec v h d vs p Hok) as (r & Hr & Hpost).
  destruct r as [a|].
  { destruct Hpost as (Ha & n & Hn & Hv). by destruct (Habs a n). }
  destruct (lower_bound_spec v vs (State h d (Column vs p))) as (i & Hi & Hle).
  { apply Hok. }
  exists i. split; [done|].
  unfold map_emplace. step Hr.
  unfold bind at 1. simpl in *. rewrite Hi. done.
Qed.

Lemma map_emplace_old v c h d vs p a n :
  map_ok h vs -> a ∈ vs -> live h a = Some n -> first n = v ->
  map_emplace v c (State h d (Column vs p))
  = Ok (a, false) (State h d (Column vs p)).
Proof.
  intros Hok Ha Hn Hv.
  destruct (map_find_spec v h d vs p Hok) as (r & Hr & Hpost).
  unfold map_emplace. step Hr.
  destruct r as [b|].
  - destruct Hpost as (Hb & m & Hm & Hv').
    assert (b = a) as ->; [|done].
    destruct Hok as (_ & _ & Hinj). eapply Hinj; eauto. congruence.
  - by destruct (Hpost a n).
Qed.

Lemma map_erase_spec h d vs p a n :
  a ∈ vs -> live h a = Some n ->
  map_erase a (State h d (Column vs p))
  = Ok tt (State (<[a := None]> h) d (Column (filter (fun b => b <> a) vs) p)).
Proof.
  intros Ha Hn. unfold map_erase. simpl.
  rewrite decide_True by done.
  unfold bind, deref. simpl. by rewrite Hn.
Qed.

Lemma set_second_spec h d c a n x :
  live h a = Some n ->
  set_second a x (State h d c)
  = Ok tt (State (<[a := Some (Node (first n) x)]> h) d c).
Proof.
  intros Hn. unfold set_second, bind, deref. simpl. by rewrite Hn.
Qed.

(** *** One more row for a value, one row less for a node *)

Lemma citing_cons p a b :
  citing (a :: p) b = if decide (a = b) then S (citing p b) else citing p b.
Proof.
  unfold citing. rewrite filter_cons. by destruct (decide (a = b)).
Qed.

Lemma citing_perm p q a : p ≡ₚ q -> citing p a = citing q a.
Proof. intros Hp. unfold citing. by rewrite Hp. Qed.

Lemma citing_pos p a : (0 < citing p a)%nat <-> a ∈ p.
Proof.
  induction p as [|b p IH].
  - unfold citing. simpl. split; [lia|]. intros Ha. by apply elem_of_nil in Ha.
  - rewrite citing_cons, elem_of_cons. destruct (decide (b = a)) as [->|Hne].
    + split; [by left | lia].
    + rewrite IH. split; [by right|]. intros [->|]; done.
Qed.

Lemma citing_zero p a : a ∉ p -> citing p a = 0%nat.
Proof.
  intros Hn. destruct (citing p a) eqn:E; [done|].
  exfalso. apply Hn, citing_pos. lia.
Qed.

Lemma citing_le p a : (citing p a <= length p)%nat.
Proof. unfold citing. apply length_filter. Qed.

Lemma take_drop_insert_elem (vs : list addr) i a b :
  b ∈ take i vs ++ a :: drop i vs <-> b = a \/ b ∈ vs.
Proof.
  rewrite elem_of_app, elem_of_cons.
  assert (b ∈ vs <-> b ∈ take i vs \/ b ∈ drop i vs) as ->; [|tauto].
  by rewrite <- elem_of_app, take_drop.
Qed.

Lemma take_drop_insert_NoDup (vs : list addr) i a :
  NoDup vs -> a ∉ vs -> NoDup (take i vs ++ a :: drop i vs).
Proof.
  intros Hnd Ha.
  assert (take i vs ++ a :: drop i vs ≡ₚ a :: vs) as ->.
  { rewrite <- Permutation_middle. by rewrite take_drop. }
  by constructor.
Qed.

Lemma map_ok_fresh h vs : map_ok h vs -> length h ∉ vs.
Proof.
  intros (_ & Hlive & _) Hin. destruct (Hlive _ Hin) as [n Hn].
  apply live_Some_lt in Hn. lia.
Qed.

Lemma map_ok_acquired h vs v h' vs' a :
  map_ok h vs -> acquired h vs v h' vs' a ->
  map_ok h' vs' /\ a ∈ vs' /\
  (exists n, live h' a = Some n /\ first n = v) /\
  (forall b, b ∈ vs' <-> b = a \/ b ∈ vs) /\
  (forall b, b ∈ vs -> first <$> live h' b = first <$> live h b) /\
  (forall b, b <> a -> live h' b = live h b).
Proof.
  intros Hok Hacq. pose proof Hok as (Hnd & Hlive & Hinj).
  destruct Hacq as [a n Ha Hn Hv | i Habs Hi].
  - pose proof (live_Some_lt _ _ _ Hn) as Hlt.
    assert (Hkey : forall b, first <$> live (<[a:=Some (Node (first n) (incr (second n)))]> h) b
                         = first <$> live h b).
    { intros b. destruct (decide (a = b)) as [<-|Hne].
      - rewrite live_insert_eq by done. by rewrite Hn.
      - by rewrite live_insert_ne. }
    split; [|split; [done|split; [|split; [|split]]]].
    + split; [done|]. split.
      * intros b Hb. destruct (decide (a = b)) as [<-|Hne].
        -- by rewrite live_insert_eq.
        -- rewrite live_insert_ne by done. by apply Hlive.
      * intros b c m m' Hb Hc Hm Hm' Heq.
        pose proof (Hkey b) as Hkb. pose proof (Hkey c) as Hkc.
        rewrite Hm in Hkb. rewrite Hm' in Hkc.
        destruct (live h b) as [nb|] eqn:Eb; [|done].
        destruct (live h c) as [nc|] eqn:Ec; [|done].
        simpl in *. eapply Hinj; eauto. congruence.
    + exists (Node (first n) (incr (second n))).
      split; [by rewrite live_insert_eq | done].
    + intros b. split; [by right|]. by intros [->|].
    + intros b _. apply Hkey.
    + intros b Hne. by rewrite live_insert_ne.
  - pose proof (map_ok_fresh _ _ Hok) as Hfresh.
    assert (Hold : forall b, b ∈ vs -> live (h ++ [Some (Node v 1)]) b = live h b).
    { intros b Hb. destruct (Hlive _ Hb) as [m Hm].
      apply live_app_old. by eapply live_Some_lt. }
    split; [|split; [|split; [|split; [|split]]]].
    + split; [by apply take_drop_insert_NoDup|]. split.
      * intros b [->|Hb]%take_drop_insert_elem.
        -- by rewrite live_app_new.
        -- rewrite Hold by done. by apply Hlive.
      * intros b c m m' [->|Hb]%take_drop_insert_elem
          [->|Hc]%take_drop_insert_elem; try done.
        -- rewrite live_app_new, Hold by done. intros [= <-] Hm' Heq.
           simpl in Heq. by destruct (Habs c m').
        -- rewrite live_app_new, Hold by done. intros Hm [= <-] Heq.
           simpl in Heq. by destruct (Habs b m).
        -- rewrite !Hold by done. by apply Hinj.
    + apply take_drop_insert_elem. by left.
    + exists (Node v 1). by rewrite live_app_new.
    + intros b. apply take_drop_insert_elem.
    + intros b Hb. by rewrite Hold.
    + intros b Hne. unfold live.
      destruct (decide (b < length h)%nat).
      * by rewrite lookup_app_l.
      * rewrite (lookup_ge_None_2 h) by lia.
        rewrite lookup_ge_None_2; [done|]. rewrite length_app. simpl. lia.
Qed.

Lemma perm_cons_elem (p1 p0 : list addr) a b :
  p1 ≡ₚ a :: p0 -> b ∈ p1 <-> b = a \/ b ∈ p0.
Proof. intros ->. apply elem_of_cons. Qed.

Lemma sound_acquired h vs v h' vs' a p0 p1 :
  sound_raw h vs p0 -> acquired h vs v h' vs' a -> p1 ≡ₚ a :: p0 ->
  sound_raw h' vs' p1.
Proof.
  intros Hs Hacq Hp. pose proof (sound_raw_map_ok _ _ _ Hs) as Hok.
  destruct (map_ok_acquired _ _ _ _ _ _ Hok Hacq)
    as ((Hnd & Hlive & Hinj) & Ha & _ & Hel & _).
  repeat split; try done.
  intros b [->|Hb]%(perm_cons_elem _ _ _ _ Hp); [done|].
  apply Hel. right. by apply Hs.
Qed.

Lemma wrap_small z : 0 <= z <= SIZE_MAX -> wrap z = z.
Proof. unfold wrap, SIZE_MAX. intros Hz. apply Z.mod_small. lia. Qed.

Lemma inv_acquired h vs v h' vs' a p0 p1 :
  inv_raw h vs p0 -> acquired h vs v h' vs' a -> p1 ≡ₚ a :: p0 ->
  Z.of_nat (length p1) <= SIZE_MAX ->
  inv_raw h' vs' p1.
Proof.
  intros (Hs & Hc & Hbound) Hacq Hp Hlen.
  split; [by eapply sound_acquired|]. split; [|done].
  pose proof (sound_raw_map_ok _ _ _ Hs) as Hok.
  destruct (map_ok_acquired _ _ _ _ _ _ Hok Hacq)
    as (_ & Ha & _ & Hel & _ & Hother).
  assert (Hcite : forall b, citing p1 b
             = if decide (a = b) then S (citing p0 b) else citing p0 b).
  { intros b. rewrite (citing_perm _ _ _ Hp). apply citing_cons. }
  assert (Hlen0 : (length p1 = S (length p0))%nat).
  { by rewrite Hp. }
  intros b m Hb Hm. rewrite Hcite.
  destruct (decide (a = b)) as [<-|Hne].
  - split; [|lia]. destruct Hacq as [a n Ha' Hn Hv | i Habs Hi].
    + rewrite live_insert_eq in Hm by (by eapply live_Some_lt).
      injection Hm as <-. simpl.
      destruct (Hc a n Ha' Hn) as [-> _].
      pose proof (citing_le p0 a). unfold incr. rewrite wrap_small; lia.
    + rewrite live_app_new in Hm. injection Hm as <-. simpl.
      rewrite citing_zero; [done|].
      intros Hin. apply Hs in Hin. by apply (map_ok_fresh _ _ Hok).
  - rewrite Hother in Hm by done. apply Hc; [|done].
    apply Hel in Hb as [->|Hb]; done.
Qed.

Lemma inv_released h vs a h' vs' p0 p1 :
  inv_raw h vs p1 -> released h vs a h' vs' -> p1 ≡ₚ a :: p0 ->
  inv_raw h' vs' p0.
Proof.
  intros (Hs & Hc & Hbound) Hrel Hp.
  pose proof Hs as (Hnd & Hlive & Hinj & Hrows).
  assert (Hcite : forall b, citing p1 b
             = if decide (a = b) then S (citing p0 b) else citing p0 b).
  { intros b. rewrite (citing_perm _ _ _ Hp). apply citing_cons. }
  assert (Hlen0 : (length p1 = S (length p0))%nat).
  { by rewrite Hp. }
  assert (Ha : a ∈ vs).
  { apply Hrows. apply (perm_cons_elem _ _ _ _ Hp). by left. }
  assert (Hdec : forall n, live h a = Some n ->
            decr (second n) = Z.of_nat (citing p0 a)).
  { intros n Hn. destruct (Hc a n Ha Hn) as [-> _]. rewrite Hcite.
    rewrite decide_True by done. pose proof (citing_le p0 a).
    unfold decr. rewrite wrap_small; lia. }
  destruct Hrel as [n Hn Hnz | n Hn Hz].
  - pose proof (live_Some_lt _ _ _ Hn) as Hlt. rewrite (Hdec n Hn) in *.
    assert (Hkey : forall b, first <$> live (<[a:=Some (Node (first n) (Z.of_nat (citing p0 a)))]> h) b
                         = first <$> live h b).
    { intros b. destruct (decide (a = b)) as [<-|Hne].
      - rewrite live_insert_eq by done. by rewrite Hn.
      - by rewrite live_insert_ne. }
    split; [|split; [|lia]].
    + repeat split; try done.
      * intros b Hb. destruct (decide (a = b)) as [<-|Hne].
        -- by rewrite live_insert_eq.
        -- rewrite live_insert_ne by done. by apply Hlive.
      * intros b c m m' Hb' Hc' Hm Hm' Heq.
        pose proof (Hkey b) as Hkb. pose proof (Hkey c) as Hkc.
        rewrite Hm in Hkb. rewrite Hm' in Hkc.
        destruct (live h b) as [nb|] eqn:Eb; [|done].
        destruct (live h c) as [nc|] eqn:Ec; [|done].
        simpl in *. eapply Hinj; eauto. congruence.
      * intros b Hb'. apply Hrows, (perm_cons_elem _ _ _ _ Hp). by right.
    + intros b m Hb' Hm. destruct (decide (a = b)) as [<-|Hne].
      * rewrite live_insert_eq in Hm by done. injection Hm as <-. simpl.
        split; [done | lia].
      * rewrite live_insert_ne in Hm by done.
        destruct (Hc b m Hb' Hm) as [Hsec Hpos]. rewrite Hcite in Hsec, Hpos.
        by rewrite decide_False in Hsec, Hpos.
  - pose proof (live_Some_lt _ _ _ Hn) as Hlt.
    assert (Hnot : a ∉ p0).
    { intros Hin%citing_pos. rewrite (Hdec n Hn) in Hz. lia. }
    split; [|split; [|lia]].
    + repeat split.
      * by apply NoDup_filter.
      * intros b [Hne Hb']%list_elem_of_filter.
        rewrite live_insert_ne by done. by apply Hlive.
      * intros b c m m' [Hne Hb']%list_elem_of_filter
          [Hne' Hc']%list_elem_of_filter.
        rewrite !live_insert_ne by done. by apply Hinj.
      * intros b Hb'. apply list_elem_of_filter. split.
        -- intros ->. done.
        -- apply Hrows, (perm_cons_elem _ _ _ _ Hp). by right.
    + intros b m [Hne Hb']%list_elem_of_filter Hm.
      rewrite live_insert_ne in Hm by done.
      destruct (Hc b m Hb' Hm) as [Hsec Hpos]. rewrite Hcite in Hsec, Hpos.
      by rewrite decide_False in Hsec, Hpos.
Qed.

(** *** What the methods compute *)

Lemma insert_run v h d vs p :
  map_ok h vs ->
  exists h' vs' a, acquired h vs v h' vs' a /\
    insert v (State h d (Column vs p))
    = Ok true (State h' d (Column vs' (p ++ [a]))).
Proof.
  intros Hok.
  destruct (map_find_spec v h d vs p Hok) as (r & Hr & Hpost).
  unfold insert. step Hr.
  destruct r as [a|].
  - destruct Hpost as (Ha & n & Hn & Hv).
    exists (<[a := Some (Node (first n) (incr (second n)))]> h), vs, a.
    split; [by econstructor|].
    step (deref_live _ _ _ _ _ Hn).
    step (set_second_spec _ _ _ _ _ _ Hn).
    done.
  - destruct (map_emplace_new v 1 h d vs p Hok Hpost) as (i & Hi & He).
    exists (h ++ [Some (Node v 1)]), (take i vs ++ length h :: drop i vs),
      (length h).
    split; [by constructor|].
    step He. done.
Qed.

Lemma release_run {B} (k : M T B) h d vs p a n :
  a ∈ vs -> live h a = Some n ->
  exists h' vs', released h vs a h' vs' /\
    (set_second a (decr (second n)) ;;;
     (if decr (second n) =? 0 then map_erase a else ret tt) ;;;
     k) (State h d (Column vs p))
    = k (State h' d (Column vs' p)).
Proof.
  intros Ha Hn. pose proof (live_Some_lt _ _ _ Hn) as Hlt.
  step (set_second_spec _ _ _ _ _ _ Hn).
  destruct (decr (second n) =? 0) eqn:E.
  - apply Z.eqb_eq in E.
    exists (<[a := None]> h), (filter (fun b => b <> a) vs).
    split; [by econstructor|].
    erewrite bind_ok; [done|].
    erewrite map_erase_spec; [|done|by rewrite live_insert_eq].
    by rewrite list_insert_insert_eq.
  - apply Z.eqb_neq in E.
    exists (<[a := Some (Node (first n) (decr (second n)))]> h), vs.
    split; [by econstructor|]. done.
Qed.

Lemma shift_left_spec h d vs fuel : forall i p,
  (i + fuel < length p)%nat ->
  shift_left fuel i (State h d (Column vs p))
  = Ok tt (State h d (Column vs
      (take i p ++ take fuel (drop (S i) p) ++ drop (i + fuel) p))).
Proof.
  induction fuel as [|fuel IH]; intros i p Hlen; simpl.
  - rewrite Nat.add_0_r. by rewrite take_drop.
  - destruct (lookup_lt_is_Some_2 p (i + 1)) as [a Ha]; [lia|].
    unfold bind at 1. unfold vec_index. simpl. rewrite Ha.
    unfold bind at 1. unfold vec_assign. simpl.
    rewrite decide_True by lia. simpl.
    rewrite IH by (rewrite length_insert; lia).
    do 3 f_equal.
    rewrite (take_S_r _ i a) by (rewrite list_lookup_insert_eq by lia; done).
    rewrite take_insert_ge by lia.
    rewrite drop_insert_lt by lia.
    rewrite (drop_insert_lt _ (S i + fuel)) by lia.
    replace (i + 1)%nat with (S i) in Ha by lia.
    rewrite (drop_S _ a (S i)) by done.
    rewrite <- app_assoc. simpl.
    by replace (S (i + fuel)) with (i + S fuel)%nat by lia.
Qed.

Lemma remove_run h d vs p tid a n :
  p !! tid = Some a -> a ∈ vs -> live h a = Some n ->
  Z.of_nat (length p) <= SIZE_MAX ->
  exists h' vs', released h vs a h' vs' /\
    remove tid (State h d (Column vs p))
    = Ok true (State h' d (Column vs' (delete tid p))).
Proof.
  intros Hp Ha Hn Hlen. pose proof (lookup_lt_Some _ _ _ Hp) as Hlt.
  unfold remove.
  assert (Hat : vec_at tid (State h d (Column vs p))
                = Ok a (State h d (Column vs p))).
  { unfold vec_at. simpl. by rewrite Hp. }
  step Hat.
  step (deref_live _ _ _ _ _ Hn).
  edestruct (release_run (B:=bool)) as (h' & vs' & Hrel & ->); [done..|].
  exists h', vs'. split; [done|].
  unfold bind at 1. unfold vec_size. simpl.
  rewrite wrap_small by lia.
  replace (Z.to_nat (Z.of_nat (length p) - 1 - Z.of_nat tid))
    with (length p - 1 - tid)%nat by lia.
  assert (Hfuel : (tid + (length p - 1 - tid) < length p)%nat) by lia.
  step (shift_left_spec h' d vs' _ tid p Hfuel).
  unfold bind, pop_back. simpl.
  destruct (take tid p ++ take (length p - 1 - tid) (drop (S tid) p)
            ++ drop (tid + (length p - 1 - tid)) p) as [|x q] eqn:E.
  { apply (f_equal length) in E. rewrite !length_app, length_take,
      !length_drop in E. simpl in E. lia. }
  rewrite <- E. clear E. unfold with_position, ret. simpl. do 3 f_equal.
  rewrite delete_take_drop.
  rewrite !length_app, !length_take, !length_drop.
  rewrite (take_ge (drop (S tid) p)) by (rewrite length_drop; lia).
  rewrite app_assoc. rewrite take_app_le.
  2:{ rewrite length_app, length_take, length_drop. lia. }
  rewrite take_ge; [done|]. rewrite length_app, length_take, length_drop. lia.
Qed.

Lemma inv_raw_map_ok h vs p : inv_raw h vs p -> map_ok h vs.
Proof. intros (Hs & _). by eapply sound_raw_map_ok. Qed.

Lemma inv_raw_row h vs p tid a :
  inv_raw h vs p -> p !! tid = Some a ->
  a ∈ vs /\ exists n, live h a = Some n.
Proof.
  intros ((_ & Hlive & _ & Hrows) & _) Hp.
  assert (a ∈ vs) as Ha. { apply Hrows. by eapply list_elem_of_lookup_2. }
  split; [done|]. by apply Hlive.
Qed.

Lemma insert_perm (p : list addr) tid x :
  (tid < length p)%nat -> <[tid := x]> p ≡ₚ x :: delete tid p.
Proof.
  intros Hlt.
  rewrite (delete_Permutation (<[tid := x]> p) tid x)
    by (by rewrite list_lookup_insert_eq).
  f_equiv. rewrite !delete_take_drop.
  by rewrite take_insert_ge, drop_insert_lt by lia.
Qed.

Lemma update_run v h d vs p tid a0 :
  inv_raw h vs p -> p !! tid = Some a0 ->
  exists h1 vs1 h2 vs2 a1 h3 vs3 a2,
    released h vs a0 h1 vs1 /\ acquired h1 vs1 v h2 vs2 a1 /\
    acquired h2 vs2 v h3 vs3 a2 /\
    update tid (any_T v) (State h d (Column vs p))
    = Ok true (State h3 d (Column vs3 (<[tid := a1]> p ++ [a2]))).
Proof.
  intros Hinv Hp. pose proof (lookup_lt_Some _ _ _ Hp) as Hlen.
  destruct (inv_raw_row _ _ _ _ _ Hinv Hp) as (Ha0 & n & Hn).
  unfold update.
  assert (Hat : vec_at tid (State h d (Column vs p))
                = Ok a0 (State h d (Column vs p))).
  { unfold vec_at. simpl. by rewrite Hp. }
  step Hat.
  step (deref_live _ _ _ _ _ Hn).
  edestruct (release_run (B:=bool)) as (h1 & vs1 & Hrel & ->); [done..|].
  exists h1, vs1.
  assert (Hinv1 : inv_raw h1 vs1 (delete tid p)).
  { eapply inv_released; [done..|]. by apply delete_Permutation. }
  pose proof (inv_raw_map_ok _ _ _ Hinv1) as Hok1.
  destruct (map_find_spec v h1 d vs1 p Hok1) as (r & Hr & Hpost).
  step Hr.
  assert (exists h2 vs2 a1, acquired h1 vs1 v h2 vs2 a1 /\
    forall k : M T bool,
    (match r with
     | Some elem => n <- deref elem ;;
                    set_second elem (incr (second n)) ;;; vec_assign tid elem
     | None => pair <- map_emplace v 1 ;; vec_assign tid (fst pair)
     end ;;; k) (State h1 d (Column vs1 p))
    = k (State h2 d (Column vs2 (<[tid := a1]> p)))) as
    (h2 & vs2 & a1 & Hacq1 & Hstep).
  { destruct r as [a|].
    - destruct Hpost as (Ha & m & Hm & Hv).
      exists (<[a := Some (Node (first m) (incr (second m)))]> h1), vs1, a.
      split; [by econstructor|]. intros k.
      unfold bind at 1.
      step (deref_live _ _ _ _ _ Hm).
      step (set_second_spec _ _ _ _ _ _ Hm).
      unfold vec_assign. simpl. by rewrite decide_True by done.
    - destruct (map_emplace_new v 1 h1 d vs1 p Hok1 Hpost)
        as (i & Hi & He).
      exists (h1 ++ [Some (Node v 1)]),
        (take i vs1 ++ length h1 :: drop i vs1), (length h1).
      split; [by constructor|]. intros k.
      unfold bind at 1. step He.
      unfold vec_assign. simpl. by rewrite decide_True by done. }
  rewrite Hstep. exists h2, vs2, a1.
  destruct (map_ok_acquired _ _ _ _ _ _ Hok1 Hacq1) as (Hok2 & _).
  destruct (insert_run v h2 d vs2 (<[tid := a1]> p) Hok2)
    as (h3 & vs3 & a2 & Hacq2 & Hins).
  exists h3, vs3, a2. by repeat split.
Qed.

(** *** Reading rows and counts *)

Lemma row_eq h d vs p tid :
  row (State h d (Column vs p)) tid
  = match p !! tid with
    | Some a => first <$> live h a
    | None => None
    end.
Proof.
  unfold row, get, bind, vec_at, deref. simpl.
  destruct (p !! tid) as [a|]; simpl; [|done].
  unfold live. by destruct (h !! a) as [[n|]|].
Qed.

Lemma entry_count_present h d vs p a n :
  map_ok h vs -> a ∈ vs -> live h a = Some n ->
  entry_count (State h d (Column vs p)) (first n) = Some (second n).
Proof.
  intros Hok Ha Hn. unfold entry_count.
  destruct (map_find_spec (first n) h d vs p Hok) as (r & -> & Hpost).
  destruct r as [b|].
  - destruct Hpost as (Hb & m & Hm & Hv).
    assert (b = a) as ->. { destruct Hok as (_ & _ & Hinj). by eapply Hinj. }
    simpl. by rewrite Hn.
  - by destruct (Hpost a n).
Qed.

Lemma entry_count_absent h d vs p v :
  map_ok h vs ->
  (forall a n, a ∈ vs -> live h a = Some n -> first n <> v) ->
  entry_count (State h d (Column vs p)) v = None.
Proof.
  intros Hok Habs. unfold entry_count.
  destruct (map_find_spec v h d vs p Hok) as (r & -> & Hpost).
  destruct r as [b|]; [|done].
  destruct Hpost as (Hb & m & Hm & Hv). by destruct (Habs b m).
Qed.

Lemma entry_count_acquired h d vs p v h' vs' a p' :
  map_ok h vs -> acquired h vs v h' vs' a ->
  entry_count (State h' d (Column vs' p')) v
  = Some (match entry_count (State h d (Column vs p)) v with
          | Some c => incr c
          | None => 1
          end).
Proof.
  intros Hok Hacq.
  destruct (map_ok_acquired _ _ _ _ _ _ Hok Hacq)
    as (Hok' & Ha & (m & Hm & Hv) & _).
  rewrite <- Hv at 1. rewrite (entry_count_present _ _ _ _ _ _ Hok' Ha Hm).
  f_equal. destruct Hacq as [a n Ha' Hn Hv' | i Habs Hi].
  - rewrite <- Hv'. rewrite (entry_count_present _ _ _ _ _ _ Hok Ha' Hn).
    rewrite live_insert_eq in Hm by (by eapply live_Some_lt).
    by injection Hm as <-.
  - rewrite (entry_count_absent _ _ _ _ _ Hok Habs).
    rewrite live_app_new in Hm. by injection Hm as <-.
Qed.

Lemma rows_acquired h vs v h' vs' a p tid :
  sound_raw h vs p -> acquired h vs v h' vs' a ->
  forall d d', row (State h' d' (Column vs' (p ++ [a]))) tid
  = if decide (tid = length p) then Some v
    else row (State h d (Column vs p)) tid.
Proof.
  intros Hs Hacq d d'. pose proof (sound_raw_map_ok _ _ _ Hs) as Hok.
  destruct (map_ok_acquired _ _ _ _ _ _ Hok Hacq)
    as (_ & _ & (m & Hm & Hv) & _ & Hkeys & _).
  rewrite !row_eq. destruct (decide (tid = length p)) as [->|Hne].
  - rewrite lookup_app_r, Nat.sub_diag by lia. simpl. by rewrite Hm, <- Hv.
  - destruct (decide (tid < length p)%nat) as [Hlt|Hge].
    + rewrite lookup_app_l by done.
      destruct (p !! tid) as [b|] eqn:Hb; [|done].
      apply Hkeys, Hs. by eapply list_elem_of_lookup_2.
    + rewrite (lookup_ge_None_2 p) by lia.
      rewrite lookup_ge_None_2; [done|]. rewrite length_app. simpl. lia.
Qed.

Lemma released_other h vs a h' vs' b :
  released h vs a h' vs' -> b <> a -> live h' b = live h b.
Proof. intros [n Hn Hnz | n Hn Hz] Hne; by rewrite live_insert_ne. Qed.

Lemma free_all_spec d c l : forall h,
  NoDup l -> (forall a, a ∈ l -> is_Some (live h a)) ->
  exists h', free_all l (State h d c) = Ok tt (State h' d c).
Proof.
  induction l as [|a l IH]; intros h Hnd Hlive; simpl.
  - by exists h.
  - destruct (Hlive a) as [n Hn]; [left|].
    step (deref_live _ _ _ _ _ Hn).
    unfold bind at 1. unfold with_mem. simpl.
    apply NoDup_cons in Hnd as [Hnotin Hnd].
    apply IH; [done|]. intros b Hb.
    rewrite live_insert_ne by (intros ->; done).
    apply Hlive. by right.
Qed.

Lemma clearContent_run h d vs p :
  map_ok h vs ->
  exists h', clearContent (State h d (Column vs p))
             = Ok true (State h' d (Column [] [])).
Proof.
  intros (Hnd & Hlive & _).
  destruct (free_all_spec d (Column vs []) vs h Hnd Hlive) as (h' & Hfree).
  exists h'. unfold clearContent, map_clear, bind, with_position. simpl.
  by rewrite Hfree.
Qed.

Lemma copy_nodes_spec d c l : forall h,
  (forall a, a ∈ l -> is_Some (live h a)) ->
  copy_nodes l (State h d c)
  = Ok (seq (length h) (length l)) (State (h ++ (live h <$> l)) d c).
Proof.
  induction l as [|a l IH]; intros h Hlive.
  - simpl. by rewrite app_nil_r.
  - destruct (Hlive a) as [n Hn]; [left|].
    cbn [copy_nodes]. step (deref_live _ _ _ _ _ Hn).
    unfold bind at 1. unfold alloc. cbn [mem disk self].
    assert (Hold : forall b, b ∈ l -> live (h ++ [Some n]) b = live h b).
    { intros b Hb. destruct (Hlive b) as [m Hm]; [by right|].
      apply live_app_old. by eapply live_Some_lt. }
    assert (Hlive' : forall b, b ∈ l -> is_Some (live (h ++ [Some n]) b)).
    { intros b Hb. rewrite Hold by done. apply Hlive. by right. }
    step (IH (h ++ [Some n]) Hlive').
    unfold ret. rewrite length_app. cbn [length seq].
    rewrite Nat.add_1_r, <- app_assoc, fmap_cons. cbn [app]. rewrite Hn.
    do 4 f_equal. apply list_fmap_ext. intros i b Hb.
    apply Hold. by eapply list_elem_of_lookup_2.
Qed.

(** On any well-formed column, [copy()] returns a column whose map has new
    nodes and whose vector is the vector of the source: none of its rows
    points into its own map. *)
Lemma copy_run s :
  sound s ->
  exists c h', copy s = Ok c (State h' (disk s) (self s)) /\
    _position c = _position (self s) /\
    (forall a, a ∈ _position c -> a ∈ _values (self s) /\ a ∉ _values c).
Proof.
  destruct s as [h d [vs p]]. unfold sound. cbn [mem disk self _values _position].
  intros (Hnd & Hlive & Hinj & Hrows).
  eexists _, _. unfold copy. cbn [self _values _position].
  step (copy_nodes_spec d (Column vs p) vs h Hlive).
  split; [done|]. split; [done|]. cbn [_values _position].
  intros a Ha. split; [by apply Hrows|].
  intros [Hge _]%elem_of_seq.
  destruct (Hlive a (Hrows a Ha)) as [n Hn]. apply live_Some_lt in Hn. lia.
Qed.

Lemma inv_raw_empty h : inv_raw h [] [].
Proof.
  split; [|split].
  - split; [constructor|]. split; [|split].
    + intros a Ha. by apply elem_of_nil in Ha.
    + intros a b n m Ha. by apply elem_of_nil in Ha.
    + intros a Ha. by apply elem_of_nil in Ha.
  - intros a n Ha. by apply elem_of_nil in Ha.
  - simpl. unfold SIZE_MAX. lia.
Qed.

(** *** The invariant along calls *)

Lemma insert_inv v s :
  inv s -> Z.of_nat (size (self s)) < SIZE_MAX ->
  exists s', insert v s = Ok true s' /\ inv s' /\
    size (self s') = S (size (self s)).
Proof.
  destruct s as [h d [vs p]]. unfold inv, size. cbn [mem self _values _position]. intros Hinv Hlen.
  destruct (insert_run v h d vs p (inv_raw_map_ok _ _ _ Hinv))
    as (h' & vs' & a & Hacq & ->).
  eexists. split; [done|]. simpl. split.
  - eapply inv_acquired; [done..| |].
    + symmetry. apply Permutation_cons_append.
    + rewrite length_app. simpl. lia.
  - rewrite length_app. simpl. lia.
Qed.

Lemma update_inv tid v s :
  inv s -> (tid < size (self s))%nat -> Z.of_nat (size (self s)) < SIZE_MAX ->
  exists s', update tid (any_T v) s = Ok true s' /\ inv s' /\
    size (self s') = S (size (self s)).
Proof.
  destruct s as [h d [vs p]]. unfold inv, size. cbn [mem self _values _position]. intros Hinv Htid Hlen.
  destruct (lookup_lt_is_Some_2 p tid Htid) as [a0 Hp].
  destruct (update_run v h d vs p tid a0 Hinv Hp)
    as (h1 & vs1 & h2 & vs2 & a1 & h3 & vs3 & a2 & Hrel & Hacq1 & Hacq2 & ->).
  eexists. split; [done|]. simpl. split.
  - eapply inv_acquired; [|done| |].
    + eapply inv_acquired; [|done| |].
      * eapply inv_released; [done..|]. by apply delete_Permutation.
      * by apply insert_perm.
      * rewrite length_insert. lia.
    + symmetry. apply Permutation_cons_append.
    + rewrite length_app, length_insert. simpl. lia.
  - rewrite length_app, length_insert. simpl. lia.
Qed.

Lemma remove_inv tid s :
  inv s -> (tid < size (self s))%nat ->
  exists s', remove tid s = Ok true s' /\ inv s' /\
    _position (self s') = delete tid (_position (self s)).
Proof.
  destruct s as [h d [vs p]]. unfold inv, size. cbn [mem self _values _position]. intros Hinv Htid.
  destruct (lookup_lt_is_Some_2 p tid Htid) as [a0 Hp].
  destruct (inv_raw_row _ _ _ _ _ Hinv Hp) as (Ha0 & n & Hn).
  destruct (remove_run h d vs p tid a0 n Hp Ha0 Hn) as (h' & vs' & Hrel & ->).
  { apply Hinv. }
  eexists. split; [done|]. simpl. split; [|done].
  eapply inv_released; [done..|]. by apply delete_Permutation.
Qed.

Lemma at_out_of_range {B} (k : addr -> M T B) tid s :
  (size (self s) <= tid)%nat ->
  (a <- vec_at tid ;; k a) s = Throw out_of_range s.
Proof.
  intros Hge. unfold bind, vec_at.
  by rewrite lookup_ge_None_2.
Qed.

Lemma bind_throw {A B} (m : M T A) (k : A -> M T B) s e s' :
  m s = Throw e s' -> (x <- m ;; k x) s = Throw e s'.
Proof. intros Hm. unfold bind. by rewrite Hm. Qed.

(** A call has kept the invariant and added [k] rows at most, whether it
    returned or threw. *)
Local Abbreviation kept s k r := (exists (ok : bool) s',
  (r = Ok ok s' \/ r = Throw out_of_range s') /\
  inv s' /\ (size (self s') <= size (self s) + k)%nat).

Lemma kept_same s (ok : bool) k : inv s -> kept s k (@Ok T bool ok s).
Proof. intros Hinv. exists ok, s. split; [by left|]. split; [done|lia]. Qed.

Lemma insert_kept v s :
  inv s -> Z.of_nat (size (self s)) < SIZE_MAX -> kept s 1 (insert v s).
Proof.
  intros Hinv Hlen. destruct (insert_inv v s Hinv Hlen) as (s' & -> & Hinv' & Hsz).
  exists true, s'. split; [by left|]. split; [done|lia].
Qed.

Lemma update_kept tid x s :
  inv s -> Z.of_nat (size (self s)) < SIZE_MAX -> kept s 1 (update tid x s).
Proof.
  intros Hinv Hlen.
  destruct x as [|v|ty];
    [by apply (kept_same s false) | | by apply (kept_same s false)].
  destruct (decide (tid < size (self s))%nat) as [Htid|Hge].
  - destruct (update_inv tid v s Hinv Htid Hlen) as (s' & -> & Hinv' & Hsz).
    exists true, s'. split; [by left|]. split; [done|lia].
  - exists true, s. split; [right|split; [done|lia]].
    apply at_out_of_range. lia.
Qed.

Lemma remove_kept tid s : inv s -> kept s 0 (remove tid s).
Proof.
  intros Hinv. destruct (decide (tid < size (self s))%nat) as [Htid|Hge].
  - destruct (remove_inv tid s Hinv Htid) as (s' & -> & Hinv' & Hpos).
    exists true, s'. split; [by left|]. split; [done|].
    unfold size. rewrite Hpos, length_delete; [lia|].
    by apply lookup_lt_is_Some_2.
  - exists true, s. split; [right|split; [done|lia]].
    apply at_out_of_range. lia.
Qed.

Lemma insert_range_kept l : forall s,
  inv s -> Z.of_nat (size (self s) + length l) <= SIZE_MAX ->
  kept s (length l) (insert_range l s).
Proof.
  induction l as [|v l IH]; intros s Hinv Hlen; [by apply kept_same|].
  cbn [length] in *.
  destruct (insert_inv v s Hinv) as (s1 & Hrun & Hinv1 & Hsz1); [lia|].
  cbn [insert_range]. step Hrun.
  destruct (IH s1 Hinv1) as (ok & s' & Hr & Hinv' & Hsz); [lia|].
  exists ok, s'. split; [done|]. split; [done|lia].
Qed.

Lemma update_list_kept x tids : forall s,
  inv s -> Z.of_nat (size (self s) + length tids) <= SIZE_MAX ->
  kept s (length tids) (update_list tids x s).
Proof.
  induction tids as [|tid tids IH]; intros s Hinv Hlen; [by apply kept_same|].
  cbn [length] in *.
  destruct (update_kept tid x s Hinv) as (ok1 & s1 & Hr1 & Hinv1 & Hsz1); [lia|].
  cbn [update_list]. destruct Hr1 as [Hr1|Hr1].
  - step Hr1. destruct ok1.
    + destruct (IH s1 Hinv1) as (ok & s' & Hr & Hinv' & Hsz); [lia|].
      exists ok, s'. split; [done|]. split; [done|lia].
    + exists false, s1. split; [by left|]. split; [done|lia].
  - rewrite (bind_throw _ _ _ _ _ Hr1).
    exists true, s1. split; [by right|]. split; [done|lia].
Qed.

Lemma remove_list_kept tids : forall s,
  inv s -> kept s 0 (remove_list tids s).
Proof.
  induction tids as [|tid tids IH]; intros s Hinv; [by apply kept_same|].
  destruct (remove_kept tid s Hinv) as (ok1 & s1 & Hr1 & Hinv1 & Hsz1).
  cbn [remove_list]. destruct Hr1 as [Hr1|Hr1].
  - step Hr1. destruct ok1.
    + destruct (IH s1 Hinv1) as (ok & s' & Hr & Hinv' & Hsz).
      exists ok, s'. split; [done|]. split; [done|lia].
    + exists false, s1. split; [by left|]. split; [done|lia].
  - rewrite (bind_throw _ _ _ _ _ Hr1).
    exists true, s1. split; [by right|]. split; [done|lia].
Qed.

Lemma exec_inv o s :
  inv s -> Z.of_nat (size (self s) + calls o) <= SIZE_MAX ->
  kept s (calls o) (exec o s).
Proof.
  intros Hinv Hlen.
  destruct o as [v | x | l | tid x | tids x | tid | tids | ];
    cbn [exec calls] in *.
  - apply insert_kept; [done|lia].
  - destruct x as [|v|ty];
      [by apply (kept_same s false) | | by apply (kept_same s false)].
    apply insert_kept; [done|lia].
  - by apply insert_range_kept.
  - apply update_kept; [done|lia].
  - by apply update_list_kept.
  - by apply remove_kept.
  - by apply remove_list_kept.
  - destruct s as [h d [vs p]].
    destruct (clearContent_run h d vs p (inv_raw_map_ok _ _ _ Hinv))
      as (h' & ->).
    eexists true, _. split; [by left|]. split.
    + apply inv_raw_empty.
    + unfold size. simpl. lia.
Qed.

Lemma run_ops_inv ops : forall s,
  inv s -> Z.of_nat (size (self s) + total_calls ops) <= SIZE_MAX ->
  exists s', run_ops ops s = Some s' /\ inv s'.
Proof.
  induction ops as [|o ops IH]; intros s Hinv Hlen; simpl.
  - by exists s.
  - unfold total_calls in *.
    change (sum_list (calls <$> o :: ops))
      with (calls o + sum_list (calls <$> ops))%nat in Hlen.
    destruct (exec_inv o s Hinv) as (ok & s' & Hex & Hinv' & Hsz); [lia|].
    destruct Hex as [-> | ->]; apply IH; try done; lia.
Qed.

(** *** The methods *)

Lemma sound_row h vs p tid a :
  sound_raw h vs p -> p !! tid = Some a ->
  a ∈ vs /\ exists n, live h a = Some n.
Proof.
  intros (_ & Hlive & _ & Hrows) Hp.
  assert (a ∈ vs) as Ha. { apply Hrows. by eapply list_elem_of_lookup_2. }
  split; [done|]. by apply Hlive.
Qed.

Lemma insert_sound v s :
  sound s ->
  exists s' a, insert v s = Ok true s' /\ sound s' /\
    _position (self s') = _position (self s) ++ [a] /\
    row s' (size (self s)) = Some v /\
    (forall tid, (tid < size (self s))%nat -> row s' tid = row s tid) /\
    entry_count s' v = Some (match entry_count s v with
                             | Some c => incr c
                             | None => 1
                             end).
Proof.
  destruct s as [h d [vs p]]. unfold sound, size.
  cbn [mem self _values _position]. intros Hs.
  pose proof (sound_raw_map_ok _ _ _ Hs) as Hok.
  destruct (insert_run v h d vs p Hok) as (h' & vs' & a & Hacq & ->).
  eexists _, a. split; [done|]. cbn [mem self _values _position].
  split; [|split; [done|split; [|split]]].
  - eapply sound_acquired; [done..|]. symmetry. apply Permutation_cons_append.
  - rewrite (rows_acquired _ _ _ _ _ _ _ _ Hs Hacq d d).
    by rewrite decide_True.
  - intros tid Htid. rewrite (rows_acquired _ _ _ _ _ _ _ _ Hs Hacq d d).
    rewrite decide_False; [done | lia].
  - by eapply entry_count_acquired.
Qed.

Lemma incr_small c : 0 <= c < SIZE_MAX -> incr c = c + 1.
Proof. intros Hc. unfold incr. apply wrap_small. lia. Qed.

(** C6: [insert(v)] on a well-formed column returns [true] and leaves the
    column well formed; the count of [v] is incremented if [v] has an entry
    and is 1 otherwise; the handle appended is the one of that entry, a
    node of the column's own dictionary with the key [v] and that count, so
    the new row has TID [N], holds [v], and the rows before it are as they
    were; [k] inserts in a row (the range overload) take [size()] from [N]
    to [N + k]. *)
Theorem insert_appends_row v s :
  sound s ->
  (exists s' a n, insert v s = Ok true s' /\
     sound s' /\
     _position (self s') = _position (self s) ++ [a] /\
     a ∈ _values (self s') /\
     live (mem s') a = Some n /\ first n = v /\
     entry_count s' v = Some (second n) /\
     size (self s') = S (size (self s)) /\
     row s' (size (self s)) = Some v /\
     (forall tid, (tid < size (self s))%nat -> row s' tid = row s tid) /\
     match entry_count s v with
     | Some c => entry_count s' v = Some (incr c) /\
                 (0 <= c < SIZE_MAX -> incr c = c + 1)
     | None => entry_count s' v = Some 1
     end) /\
  (forall l, exists s'', insert_range l s = Ok true s'' /\
     size (self s'') = (size (self s) + length l)%nat).
Proof.
  intros Hs. split.
  - destruct s as [h d [vs p]]. unfold sound, size in *.
    cbn [mem self _values _position] in *.
    pose proof (sound_raw_map_ok _ _ _ Hs) as Hok.
    destruct (insert_run v h d vs p Hok) as (h' & vs' & a & Hacq & Hrun).
    destruct (map_ok_acquired _ _ _ _ _ _ Hok Hacq)
      as (Hok' & Ha & (n & Hn & Hkey) & _).
    eexists _, a, n. split; [exact Hrun|].
    cbn [mem self _values _position].
    split; [|split; [done|split; [done|split; [done|split; [done|]]]]].
    { eapply sound_acquired; [done..|]. symmetry.
      apply Permutation_cons_append. }
    split.
    { rewrite <- Hkey. by apply (entry_count_present _ _ _ _ a). }
    split; [rewrite length_app; simpl; lia|].
    split.
    { rewrite (rows_acquired _ _ _ _ _ _ _ _ Hs Hacq d d).
      by rewrite decide_True. }
    split.
    { intros tid Htid. rewrite (rows_acquired _ _ _ _ _ _ _ _ Hs Hacq d d).
      rewrite decide_False; [done | lia]. }
    rewrite (entry_count_acquired h d vs p v h' vs' a (p ++ [a]) Hok Hacq).
    destruct (entry_count (State h d (Column vs p)) v) as [c|]; [|done].
    split; [done | apply incr_small].
  - intros l. revert s Hs. induction l as [|x l IH]; intros s Hs.
    + exists s. split; [done|]. simpl. lia.
    + destruct (insert_sound x s Hs)
        as (s' & a & Hrun & Hs' & Hpos & _).
      destruct (IH s' Hs') as (s'' & Hrun' & Hsz).
      exists s''. simpl. step Hrun. split; [done|].
      rewrite Hsz. unfold size. rewrite Hpos, length_app. simpl. lia.
Qed.

(** C7: [insert] on a [boost::any] returns [false], leaving the column as
    it is, when the holder is empty or holds another type; on a holder of a
    [T] it is the typed [insert] of the value held, which returns [true]. *)
Theorem insert_any_checks_type (x : any T) s :
  sound s ->
  match x with
  | any_T v => insert_any x s = insert v s /\
               exists s', insert_any x s = Ok true s'
  | _ => insert_any x s = Ok false s
  end.
Proof.
  intros Hs. destruct x as [|v|ty]; [done| |done].
  split; [done|]. destruct (insert_sound v s Hs) as (s' & a & Hrun & _).
  by exists s'.
Qed.

(** C8: [update] with an empty holder, or a holder of another type, returns
    [false] and the state (dictionary, vector, files) is the one before the
    call, whatever [tid] is. *)
Theorem update_rejects_mistyped (tid : TID) s :
  update tid any_empty s = Ok false s /\
  forall ty, update tid (any_other ty) s = Ok false s.
Proof. done. Qed.

(** C9, amended: with [tid] outside [[0, N)], [get], [remove] and [update]
    with a holder of a [T] throw [std::out_of_range] to the caller, the
    column being as before the call; [update] with an empty or mistyped
    holder returns [false] whatever [tid] is. *)
Theorem out_of_range_throws (tid : TID) s :
  (size (self s) <= tid)%nat ->
  get tid s = Throw out_of_range s /\
  remove tid s = Throw out_of_range s /\
  (forall v, update tid (any_T v) s = Throw out_of_range s) /\
  update tid any_empty s = Ok false s /\
  (forall ty, update tid (any_other ty) s = Ok false s).
Proof.
  intros Hge. repeat split; try done.
  - by apply at_out_of_range.
  - by apply at_out_of_range.
  - intros v. by apply at_out_of_range.
Qed.

Lemma released_keys h vs a h' vs' p0 p1 b :
  inv_raw h vs p1 -> p1 ≡ₚ a :: p0 -> released h vs a h' vs' -> b ∈ p0 ->
  first <$> live h' b = first <$> live h b.
Proof.
  intros Hinv Hp Hrel Hb.
  pose proof (inv_released _ _ _ _ _ _ _ Hinv Hrel Hp) as ((_ & _ & _ & Hrows') & _).
  destruct (decide (b = a)) as [->|Hne].
  - destruct Hrel as [n Hn Hnz | n Hn Hz].
    + rewrite live_insert_eq by (by eapply live_Some_lt). by rewrite Hn.
    + apply Hrows', list_elem_of_filter in Hb. by destruct Hb.
  - by rewrite (released_other _ _ _ _ _ _ Hrel Hne).
Qed.

(** C5: [remove(tid)] with [tid < N] returns [true]; the count of the
    entry of row [tid] goes down by one and the entry is erased when that
    makes it 0; the vector loses slot [tid], the slots after it moving down
    by one, so [N] shrinks by 1, row [j > tid] is read at [j - 1] and the
    rows before [tid] stay.  With [tid >= N] the call throws
    [std::out_of_range]. *)
Theorem remove_shifts_rows (tid : TID) s :
  inv s ->
  ((tid < size (self s))%nat ->
   exists s' v c, row s tid = Some v /\ entry_count s v = Some c /\
     remove tid s = Ok true s' /\
     entry_count s' v = (if c =? 1 then None else Some (c - 1)) /\
     _position (self s') = delete tid (_position (self s)) /\
     size (self s') = (size (self s) - 1)%nat /\
     (forall j, (tid < j < size (self s))%nat -> row s' (j - 1) = row s j) /\
     (forall j, (j < tid)%nat -> row s' j = row s j)) /\
  ((size (self s) <= tid)%nat -> remove tid s = Throw out_of_range s).
Proof.
  intros Hinv. split; [|by apply at_out_of_range].
  destruct s as [h d [vs p]]. unfold inv, size in *.
  cbn [mem self _values _position] in *. intros Htid.
  destruct (lookup_lt_is_Some_2 p tid Htid) as [a0 Hp].
  destruct (inv_raw_row _ _ _ _ _ Hinv Hp) as (Ha0 & n & Hn).
  pose proof (inv_raw_map_ok _ _ _ Hinv) as Hok.
  destruct (remove_run h d vs p tid a0 n Hp Ha0 Hn) as (h' & vs' & Hrel & ->).
  { apply Hinv. }
  pose proof (delete_Permutation _ _ _ Hp) as Hperm.
  pose proof (inv_released _ _ _ _ _ _ _ Hinv Hrel Hperm) as Hinv'.
  pose proof (inv_raw_map_ok _ _ _ Hinv') as Hok'.
  assert (Hc : 1 <= second n <= SIZE_MAX).
  { destruct Hinv as (_ & Hcnt & Hbound).
    destruct (Hcnt a0 n Ha0 Hn) as [-> Hpos].
    pose proof (citing_le p a0). lia. }
  assert (Hdecr : decr (second n) = second n - 1).
  { unfold decr. apply wrap_small. lia. }
  exists (State h' d (Column vs' (delete tid p))), (first n), (second n).
  cbn [mem self _values _position].
  assert (Hkeep : forall i j, delete tid p !! i = p !! j -> (j < length p)%nat ->
            j <> tid ->
            row (State h' d (Column vs' (delete tid p))) i
            = row (State h d (Column vs p)) j).
  { intros i j Hij Hj Hne. rewrite !row_eq, Hij.
    destruct (p !! j) as [b|] eqn:Hb; [|done].
    eapply released_keys; [done..|].
    apply list_elem_of_lookup. exists i. by rewrite Hij. }
  split; [by rewrite row_eq, Hp, Hn|].
  split; [by apply (entry_count_present _ _ _ _ a0)|].
  split; [done|]. split; [|split; [done|split; [|split]]].
  - destruct Hrel as [m Hm Hnz | m Hm Hz];
      rewrite Hm in Hn; injection Hn as ->; rewrite Hdecr in *.
    + rewrite (proj2 (Z.eqb_neq _ _)) by lia.
      pose proof (live_insert_eq h a0 (Some (Node (first n) (second n - 1)))
                    (live_Some_lt _ _ _ Hm)) as Hlive'.
      by rewrite (entry_count_present _ d _ (delete tid p) _ _ Hok' Ha0 Hlive').
    + rewrite (proj2 (Z.eqb_eq _ _)) by lia.
      apply entry_count_absent; [done..|].
      intros b m [Hne Hb]%list_elem_of_filter Hlb Hkey.
      rewrite live_insert_ne in Hlb by done.
      destruct Hok as (_ & _ & Hinj). apply Hne. by eapply Hinj.
  - rewrite length_delete by (by apply lookup_lt_is_Some_2). lia.
  - intros j Hj. apply Hkeep; [|lia..].
    rewrite list_lookup_delete_ge by lia. f_equal. lia.
  - intros j Hj. apply Hkeep; [|lia..].
    by rewrite list_lookup_delete_lt by lia.
Qed.

(** C4: from the empty column, after any sequence of [insert], [update],
    [remove] (each in any of its overloads) and [clearContent] calls, with
    fewer than [2^64] single-row inserts and updates in all, the counts
    being [size_t]: no call has had undefined behaviour, every node of the
    dictionary is allocated, its count is the number of slots of
    [_position] holding its address, and that number is not 0. *)
Theorem counts_match_rows (ops : list (op (T:=T))) :
  Z.of_nat (total_calls ops) <= SIZE_MAX ->
  exists s, run_ops ops empty_state = Some s /\
    forall a, a ∈ _values (self s) ->
      exists n, live (mem s) a = Some n /\
        second n = Z.of_nat (citing (_position (self s)) a) /\
        second n <> 0.
Proof.
  intros Hlen.
  destruct (run_ops_inv ops empty_state) as (s & Hrun & Hinv).
  { apply inv_raw_empty. }
  { simpl. lia. }
  exists s. split; [done|]. intros a Ha.
  destruct Hinv as ((_ & Hlive & _) & Hcnt & _).
  destruct (Hlive a Ha) as [n Hn]. exists n. split; [done|].
  destruct (Hcnt a n Ha Hn) as [Hsec Hpos]. split; [done | lia].
Qed.

(** ** The serializer *)

Context `{Streamable T}.




(** *** [load] *)

Lemma live_app_l h h2 a : (a < length h)%nat -> live (h ++ h2) a = live h a.
Proof. intros Hlt. unfold live. by rewrite lookup_app_l. Qed.

Lemma map_ok_new h vs v c i :
  map_ok h vs ->
  (forall a n, a ∈ vs -> live h a = Some n -> first n <> v) ->
  map_ok (h ++ [Some (Node v c)]) (take i vs ++ length h :: drop i vs).
Proof.
  intros Hok Habs. pose proof Hok as (Hnd & Hlive & Hinj).
  pose proof (map_ok_fresh _ _ Hok) as Hfresh.
  assert (Hold : forall b, b ∈ vs -> live (h ++ [Some (Node v c)]) b = live h b).
  { intros b Hb. destruct (Hlive _ Hb) as [m Hm].
    apply live_app_old. by eapply live_Some_lt. }
  split; [by apply take_drop_insert_NoDup|]. split.
  - intros b [->|Hb]%take_drop_insert_elem.
    + by rewrite live_app_new.
    + rewrite Hold by done. by apply Hlive.
  - intros b b' m m' [->|Hb]%take_drop_insert_elem
      [->|Hc]%take_drop_insert_elem; try done.
    + rewrite live_app_new, Hold by done. intros [= <-] Hm' Heq.
      simpl in Heq. by destruct (Habs b' m').
    + rewrite live_app_new, Hold by done. intros Hm [= <-] Heq.
      simpl in Heq. by destruct (Habs b m).
    + rewrite !Hold by done. by apply Hinj.
Qed.

Lemma map_emplace_gen v c h d vs p :
  map_ok h vs ->
  exists a ins hn vs',
    map_emplace v c (State h d (Column vs p))
    = Ok (a, ins) (State (h ++ hn) d (Column vs' p)) /\
    map_ok (h ++ hn) vs' /\ (forall b, b ∈ vs -> b ∈ vs') /\
    a ∈ vs' /\ first <$> live (h ++ hn) a = Some v.
Proof.
  intros Hok.
  destruct (map_find_spec v h d vs p Hok) as (r & Hr & Hpost).
  destruct r as [a|].
  - destruct Hpost as (Ha & n & Hn & Hv).
    exists a, false, [], vs. rewrite app_nil_r.
    split; [by eapply map_emplace_old|]. split; [done|]. split; [done|].
    split; [done|]. by rewrite Hn, <- Hv.
  - destruct (map_emplace_new v c h d vs p Hok Hpost) as (i & Hi & He).
    exists (length h), true, [Some (Node v c)],
      (take i vs ++ length h :: drop i vs).
    split; [done|]. split; [by apply map_ok_new|].
    split; [intros b Hb; apply take_drop_insert_elem; by right|].
    split; [apply take_drop_insert_elem; by left|].
    by rewrite live_app_new.
Qed.

Lemma load_values_gen d p fuel :
  forall input refs h vs,
  map_ok h vs ->
  exists hn vs' new,
    load_values fuel input refs (State h d (Column vs p))
    = Ok (refs ++ new) (State (h ++ hn) d (Column vs' p)) /\
    map_ok (h ++ hn) vs' /\ (forall b, b ∈ vs -> b ∈ vs') /\
    Forall2 (fun a cv => a ∈ vs' /\ first <$> live (h ++ hn) a = Some cv.2)
      new (parse_values fuel input).
Proof.
  induction fuel as [|fuel IH]; intros input refs h vs Hok.
  - exists [], vs, []. rewrite !app_nil_r. simpl.
    split; [done|]. split; [done|]. split; [done|]. constructor.
  - simpl. destruct (extract_size_t input) as [[occuring input']|].
    2:{ exists [], vs, []. rewrite !app_nil_r.
        split; [done|]. split; [done|]. split; [done|]. constructor. }
    destruct (extract input') as [[value input'']|].
    2:{ exists [], vs, []. rewrite !app_nil_r.
        split; [done|]. split; [done|]. split; [done|]. constructor. }
    destruct (map_emplace_gen value occuring h d vs p Hok)
      as (a & ins & hn & vs1 & He & Hok1 & Hsub1 & Ha & Hkey).
    destruct (IH input'' (refs ++ [a]) (h ++ hn) vs1 Hok1)
      as (hn' & vs' & new & Hrun & Hok' & Hsub' & Hall).
    exists (hn ++ hn'), vs', (a :: new).
    step He. simpl fst. rewrite Hrun.
    rewrite <- !app_assoc. simpl.
    split; [done|]. split; [by rewrite app_assoc|].
    split; [intros b Hb; by apply Hsub', Hsub1|].
    constructor; [|by rewrite app_assoc].
    { 
      split; [by apply Hsub'|]. simpl.
      rewrite app_assoc, live_app_l; [done|].
      destruct Hok1 as (_ & Hlive1 & _). destruct (Hlive1 a Ha) as [m Hm].
      by eapply live_Some_lt. }
Qed.

Lemma load_position_gen h d vs refs fuel : forall input p,
  Forall (fun o => (Z.to_nat o < length refs)%nat) (parse_ordinals fuel input) ->
  exists rows,
    load_position fuel input refs (State h d (Column vs p))
    = Ok tt (State h d (Column vs (p ++ rows))) /\
    Forall2 (fun a o => refs !! Z.to_nat o = Some a) rows
      (parse_ordinals fuel input).
Proof.
  induction fuel as [|fuel IH]; intros input p Hall.
  - exists []. rewrite app_nil_r. simpl. by split.
  - simpl in *. destruct (extract_size_t input) as [[pointer input']|].
    2:{ exists []. rewrite app_nil_r. by split. }
    apply Forall_cons in Hall as [Hptr Hall].
    destruct (lookup_lt_is_Some_2 refs _ Hptr) as [ref Href].
    rewrite Href.
    destruct (IH input' (p ++ [ref]) Hall) as (rows & Hrun & Hrows).
    exists (ref :: rows). split.
    + unfold bind at 1. unfold push_back, with_position. simpl.
      rewrite Hrun. by rewrite <- app_assoc.
    + by constructor.
Qed.

(** *** [store] *)

Lemma vm_find_app_None k (vm vm' : list (T * Z)) :
  vm_find k vm = None -> vm_find k (vm ++ vm') = vm_find k vm'.
Proof.
  induction vm as [|[k' i] vm IH]; simpl; [done|].
  destruct (equiv_key k' k); [done|]. apply IH.
Qed.

Lemma vm_find_imap ns : forall i j n,
  NoDup (first <$> ns) -> ns !! j = Some n ->
  vm_find (first n) (imap (fun j n => (first n, i + Z.of_nat j)) ns)
  = Some (i + Z.of_nat j).
Proof.
  induction ns as [|n0 ns IH]; intros i j n Hnd Hj; [done|].
  rewrite imap_cons. simpl. rewrite fmap_cons in Hnd.
  apply NoDup_cons in Hnd as [Hnotin Hnd].
  destruct j as [|j]; simpl in Hj.
  - injection Hj as ->.
    rewrite (proj2 (equiv_key_eq _ _)) by done. f_equal; lia.
  - destruct (equiv_key (first n0) (first n)) eqn:E.
    + apply equiv_key_eq in E. exfalso. apply Hnotin. rewrite E.
      apply list_elem_of_fmap. exists n. split; [done|].
      by eapply list_elem_of_lookup_2.
    + rewrite (imap_ext _ (fun j n => (first n, (i + 1) + Z.of_nat j))).
      * rewrite (IH (i + 1) j n Hnd Hj). f_equal; lia.
      * intros k x _. simpl. f_equal. lia.
Qed.

Lemma store_values_spec h d c :
  forall its ns i out vm,
  Forall2 (fun a n => live h a = Some n) its ns ->
  NoDup (first <$> ns) ->
  (forall n, n ∈ ns -> vm_find (first n) vm = None) ->
  0 <= i -> i + Z.of_nat (length ns) <= SIZE_MAX ->
  store_values its i out vm (State h d c)
  = Ok (out ++ flat_map values_line ns,
        vm ++ imap (fun j n => (first n, i + Z.of_nat j)) ns) (State h d c).
Proof.
  intros its ns i out vm Hall. revert i out vm.
  induction Hall as [|a n its ns Hn Hall IH]; intros i out vm Hnd Hvm Hi Hlen.
  - simpl. by rewrite !app_nil_r.
  - simpl store_values.
    step (deref_live _ _ _ _ _ Hn).
    rewrite fmap_cons in Hnd. apply NoDup_cons in Hnd as [Hnotin Hnd].
    cbn [length] in Hlen. rewrite Nat2Z.inj_succ in Hlen.
    unfold vm_emplace. rewrite Hvm by left.
    rewrite (incr_small i) by lia.
    rewrite IH; [|done| |lia|lia].
    + rewrite imap_cons. simpl flat_map. rewrite <- !app_assoc.
      replace (i + Z.of_nat 0) with i by lia.
      rewrite (imap_ext ((fun j n => (first n, i + Z.of_nat j)) ∘ S)
                 (fun j n => (first n, i + 1 + Z.of_nat j)) ns). 2:{ intros k x _; simpl; f_equal; lia. }
      unfold values_line. rewrite <- !app_assoc. cbn [app].
      by rewrite <- !app_assoc.
    + intros m Hm. rewrite vm_find_app_None by (apply Hvm; by right).
      simpl. destruct (equiv_key (first n) (first m)) eqn:E; [|done].
      apply equiv_key_eq in E. exfalso. apply Hnotin. rewrite E.
      apply list_elem_of_fmap. by exists m.
Qed.

Lemma store_position_spec h d c vm : forall its js out,
  Forall2 (fun a j => exists n, live h a = Some n /\
                                vm_find (first n) vm = Some j) its js ->
  store_position its out vm (State h d c)
  = Ok (out ++ flat_map position_line js) (State h d c).
Proof.
  intros its js out Hall. revert out.
  induction Hall as [|a j its js (n & Hn & Hj) Hall IH]; intros out.
  - simpl. by rewrite app_nil_r.
  - simpl store_position.
    step (deref_live _ _ _ _ _ Hn).
    unfold vm_index. rewrite Hj. rewrite IH.
    simpl. by rewrite <- app_assoc.
Qed.

Lemma Forall2_exists {A B} (R : A -> B -> Prop) (l : list A) :
  (forall x, x ∈ l -> exists y, R x y) -> exists k, Forall2 R l k.
Proof.
  induction l as [|x l IH]; intros Hex.
  - exists []. constructor.
  - destruct (Hex x) as [y Hy]; [left|].
    destruct IH as [k Hk]. { intros z Hz. apply Hex. by right. }
    exists (y :: k). by constructor.
Qed.

Lemma inv_raw_dictionary_small h vs p :
  inv_raw h vs p -> (length vs <= length p)%nat.
Proof.
  intros ((Hnd & Hlive & _) & Hcnt & _).
  apply submseteq_length, NoDup_submseteq; [done|].
  intros a Ha. destruct (Hlive a Ha) as [n Hn].
  destruct (Hcnt a n Ha Hn) as [_ Hpos]. by apply citing_pos.
Qed.

Lemma map_ok_keys_NoDup h vs ns :
  map_ok h vs -> Forall2 (fun a n => live h a = Some n) vs ns ->
  NoDup (first <$> ns).
Proof.
  intros (Hnd & _ & Hinj) Hall. apply NoDup_alt.
  intros i j k Hi Hj. rewrite list_lookup_fmap in Hi, Hj.
  destruct (ns !! i) as [n|] eqn:Eni; [|done].
  destruct (ns !! j) as [m|] eqn:Enj; [|done].
  simpl in *. injection Hi as Hi. injection Hj as Hj.
  destruct (Forall2_lookup_r _ _ _ _ _ Hall Eni) as (a & Ha & Hla).
  destruct (Forall2_lookup_r _ _ _ _ _ Hall Enj) as (b & Hb & Hlb).
  assert (a = b) as <-.
  { eapply Hinj; eauto using list_elem_of_lookup_2. congruence. }
  eapply NoDup_lookup; eauto.
Qed.




(** The file system [store] writes to. *)
Variable written : string -> list ascii -> option (list ascii).

Lemma fs_write_writable path text (d : gmap string (list ascii)) :
  writable written path ->
  fs_write written (file_name path) text d = <[file_name path := text]> d.
Proof. intros Hw. unfold fs_write. by rewrite Hw. Qed.

Lemma fs_write_unwritable path text (d : gmap string (list ascii)) :
  unwritable written path -> fs_write written (file_name path) text d = d.
Proof. intros Hw. unfold fs_write. by rewrite Hw. Qed.

Lemma fs_write_other name text (d : gmap string (list ascii)) q :
  q <> name -> fs_write written name text d !! q = d !! q.
Proof.
  intros Hq. unfold fs_write. destruct (written name text); [|done].
  by rewrite lookup_insert_ne.
Qed.

Lemma store_run path h d vs p :
  inv_raw h vs p ->
  exists ns js,
    Forall2 (fun a n => live h a = Some n) vs ns /\
    Forall2 (fun (a : addr) (j : nat) => vs !! j = Some a) p js /\
    store written path (State h d (Column vs p))
    = Ok true (State h
        (fs_write written (file_name (path +:+ "_position"))
           (flat_map position_line (Z.of_nat <$> js))
           (fs_write written (file_name (path +:+ "_values"))
              (flat_map values_line ns) d))
        (Column vs p)).
Proof.
  intros Hinv. pose proof (inv_raw_map_ok _ _ _ Hinv) as Hok.
  pose proof Hinv as ((_ & Hlive & _ & Hrows) & _ & Hbound).
  destruct (Forall2_exists (fun a n => live h a = Some n) vs) as [ns Hns].
  { intros a Ha. apply Hlive, Ha. }
  destruct (Forall2_exists (fun (a : addr) (j : nat) => vs !! j = Some a) p)
    as [js Hjs].
  { intros a Ha. by apply list_elem_of_lookup, Hrows. }
  exists ns, js. split; [done|]. split; [done|].
  pose proof (map_ok_keys_NoDup _ _ _ Hok Hns) as Hnd.
  pose proof (inv_raw_dictionary_small _ _ _ Hinv) as Hsmall.
  pose proof (Forall2_length _ _ _ Hns) as Hlen.
  unfold store.
  assert (Hvals : store_values vs 0 [] [] (State h d (Column vs p))
    = Ok (flat_map values_line ns,
          imap (fun j n => (first n, Z.of_nat j)) ns) (State h d (Column vs p))).
  { rewrite (store_values_spec h d _ vs ns 0 [] []); [done..| | |]; try lia.
    done. }
  unfold bind at 1. cbn [self _values]. rewrite Hvals.
  unfold bind at 1. unfold write_file at 1. cbn [mem disk self fst snd].
  unfold bind at 1. cbn [self _position].
  rewrite (store_position_spec _ _ _ _ p (Z.of_nat <$> js) []).
  - done.
  - apply Forall2_fmap_r. eapply Forall2_impl; [exact Hjs|].
    intros a j Hj. simpl in Hj.
    destruct (Forall2_lookup_l _ _ _ _ _ Hns Hj) as (n & Hn & Hl).
    exists n. split; [done|].
    exact (vm_find_imap ns 0 j n Hnd Hn).
Qed.


Lemma load_spec path s :
  sound s ->
  Forall (fun o => (Z.to_nat o < length (file_values s path))%nat)
    (file_ordinals s path) ->
  exists s', load path s = Ok true s' /\
    disk s' = disk s /\
    size (self s') = (size (self s) + length (file_ordinals s path))%nat /\
    (forall tid, (tid < size (self s))%nat -> row s' tid = row s tid) /\
    (forall i o, file_ordinals s path !! i = Some o ->
       row s' (size (self s) + i)
       = snd <$> (file_values s path !! Z.to_nat o)) /\
    (forall v c, entry_count s v = Some c -> entry_count s' v = Some c).
Proof.
  destruct s as [h d [vs p]]. unfold sound, size, file_values, file_ordinals.
  cbn [mem disk self _values _position].
  set (vt := default [] (d !! file_name (path +:+ "_values"))).
  set (pt := default [] (d !! file_name (path +:+ "_position"))).
  intros Hs Hords. pose proof (sound_raw_map_ok _ _ _ Hs) as Hok.
  destruct (load_values_gen d p (S (length vt)) vt [] h vs Hok)
    as (hn & vs' & refs & Hvals & Hok' & Hsub & Hrefs).
  pose proof (Forall2_length _ _ _ Hrefs) as Hlen. rewrite <- Hlen in Hords.
  destruct (load_position_gen (h ++ hn) d vs' refs (S (length pt)) pt p Hords)
    as (rows & Hpos & Hrows).
  pose proof (Forall2_length _ _ _ Hrows) as Hlen'.
  assert (Hold : forall a, a ∈ vs -> live (h ++ hn) a = live h a).
  { intros a Ha. destruct Hok as (_ & Hlive & _).
    destruct (Hlive a Ha) as [n Hn]. apply live_app_l.
    by eapply live_Some_lt. }
  exists (State (h ++ hn) d (Column vs' (p ++ rows))).
  split; [|split; [done|split; [|split; [|split]]]].
  - unfold load, bind, read_file. cbn [disk]. fold vt pt.
    simpl app in Hvals. rewrite Hvals. by rewrite Hpos.
  - cbn [self _position]. rewrite length_app. lia.
  - intros tid Htid. rewrite !row_eq. rewrite lookup_app_l by done.
    destruct (p !! tid) as [a|] eqn:Ha; [|done].
    rewrite Hold; [done|]. apply Hs. by eapply list_elem_of_lookup_2.
  - intros i o Ho. rewrite row_eq.
    rewrite lookup_app_r by lia.
    replace (length p + i - length p)%nat with i by lia.
    destruct (Forall2_lookup_r _ _ _ _ _ Hrows Ho) as (a & -> & Href).
    destruct (Forall2_lookup_l _ _ _ _ _ Hrefs Href) as (cv & -> & _ & Hkey).
    done.
  - intros v c Hc. unfold entry_count in Hc.
    destruct (map_find_spec v h d vs p Hok) as (r & Hr & Hpost).
    rewrite Hr in Hc. destruct r as [a|]; [|done].
    destruct Hpost as (Ha & n & Hn & Hv). cbn [mem] in Hc.
    rewrite Hn in Hc. injection Hc as <-. rewrite <- Hv.
    apply (entry_count_present _ _ _ _ a); [done|by apply Hsub|].
    by rewrite Hold.
Qed.

(** C10: [load] does not clear the column.  On a well-formed column, with
    every ordinal of the [_position] file below the number of lines read
    from the [_values] file, [load] returns [true]; the rows that were there
    keep their TIDs and values, each ordinal read appends one row after
    them, holding the value of the line it names; a value that had an entry
    keeps the count it had, whatever count the file gives it; [size()] is
    [N] plus the number of ordinals, which is the number of stored rows only
    when [N = 0]. *)
Theorem load_appends_to_rows path s :
  sound s ->
  Forall (fun o => (Z.to_nat o < length (file_values s path))%nat)
    (file_ordinals s path) ->
  exists s', load path s = Ok true s' /\
    size (self s') = (size (self s) + length (file_ordinals s path))%nat /\
    (forall tid, (tid < size (self s))%nat -> row s' tid = row s tid) /\
    (forall i o, file_ordinals s path !! i = Some o ->
       row s' (size (self s) + i)
       = snd <$> (file_values s path !! Z.to_nat o)) /\
    (forall v c, entry_count s v = Some c -> entry_count s' v = Some c) /\
    (size (self s') = length (file_ordinals s path) <-> size (self s) = 0%nat).
Proof.
  intros Hs Hords.
  destruct (load_spec path s Hs Hords)
    as (s' & Hrun & _ & Hsz & Hold & Hnew & Hcnt).
  exists s'. do 5 (split; [done|]). rewrite Hsz. split; intros; lia.
Qed.




End Facts.

(** ** The loops of [load] end before their fuel does *)

Section Fuel.
Context {T : Type} `{Element T} `{Streamable T}.

Lemma load_values_fuel (Hadv : advancing T) fuel1 :
  forall fuel2 input refs (s : state T),
  (length input < fuel1)%nat -> (length input < fuel2)%nat ->
  load_values fuel1 input refs s = load_values fuel2 input refs s.
Proof.
  induction fuel1 as [|fuel1 IH]; intros fuel2 input refs s H1 H2; [lia|].
  destruct fuel2 as [|fuel2]; [lia|]. simpl.
  destruct (extract_size_t input) as [[occuring input']|] eqn:E; [|done].
  destruct (extract input') as [[value input'']|] eqn:E'; [|done].
  apply extract_size_t_advances in E. apply Hadv in E'.
  unfold bind. destruct (map_emplace value occuring s); try done.
  apply IH; lia.
Qed.

Lemma load_position_fuel fuel1 :
  forall fuel2 input refs (s : state T),
  (length input < fuel1)%nat -> (length input < fuel2)%nat ->
  load_position fuel1 input refs s = load_position fuel2 input refs s.
Proof.
  induction fuel1 as [|fuel1 IH]; intros fuel2 input refs s H1 H2; [lia|].
  destruct fuel2 as [|fuel2]; [lia|]. simpl.
  destruct (extract_size_t input) as [[pointer input']|] eqn:E; [|done].
  apply extract_size_t_advances in E.
  destruct (refs !! Z.to_nat pointer); [|done].
  unfold bind. destruct (push_back _ s); try done.
  apply IH; lia.
Qed.

End Fuel.

(** ** The instances *)

Lemma int_strict_total : strict_total Z.
Proof.
  split.
  - intros a. apply Z.ltb_irrefl.
  - intros a b Hab Hba. simpl in *. apply Z.ltb_ge in Hab, Hba. lia.
Qed.

Lemma ascii_ltb_irrefl (x : ascii) : Ascii.ltb x x = false.
Proof.
  unfold Ascii.ltb, Ascii.compare. by rewrite N.compare_refl.
Qed.

Lemma ascii_ltb_total (x y : ascii) :
  Ascii.ltb x y = false -> Ascii.ltb y x = false -> x = y.
Proof.
  unfold Ascii.ltb. intros Hxy Hyx.
  apply Ascii.compare_eq_iff.
  rewrite (Ascii.compare_antisym y x) in Hyx.
  destruct (Ascii.compare x y); simpl in *; congruence.
Qed.

Lemma string_strict_total : strict_total (list ascii).
Proof.
  split.
  - intros a. simpl. induction a as [|x a IH]; simpl; [done|].
    by rewrite ascii_ltb_irrefl.
  - intros a. simpl. induction a as [|x a IH]; intros [|y b]; simpl; try done.
    destruct (Ascii.ltb x y) eqn:Hxy; [done|].
    destruct (Ascii.ltb y x) eqn:Hyx; [done|].
    intros Hab Hba. f_equal; [by apply ascii_ltb_total | by apply IH].
Qed.

Lemma string_advancing : advancing (list ascii).
Proof.
  intros l v r. simpl. unfold extract_string.
  destruct (span _ (skip_ws l)) as [tok rest] eqn:E.
  destruct tok; [done|]. intros [= <- <-].
  apply span_length in E. pose proof (skip_ws_length l). lia.
Qed.


(** ** The example columns *)

Example fruit_state_inserted :
  insert_range fruit empty_state = Ok true fruit_state.
Proof. reflexivity. Qed.

Lemma fruit_state_inv : inv fruit_state.
Proof.
  destruct (run_ops_inv string_strict_total (map op_insert fruit) empty_state)
    as (s & Hrun & Hinv).
  - apply inv_raw_empty.
  - vm_compute. discriminate.
  - vm_compute in Hrun. injection Hrun as <-. exact Hinv.
Qed.

Lemma seven_state_inv : inv seven_state.
Proof.
  destruct (run_ops_inv int_strict_total [op_insert 7] empty_state)
    as (s & Hrun & Hinv).
  - apply inv_raw_empty.
  - vm_compute. discriminate.
  - vm_compute in Hrun. injection Hrun as <-. exact Hinv.
Qed.

Lemma inv_sound {T} `{Element T} (s : state T) : inv s -> sound s.
Proof. by intros (Hs & _). Qed.


(** The scenarios of the specification on the code. *)
Example scenario_1 :
  size (self fruit_state) = 6%nat /\
  entry_count fruit_state (str "apple") = Some 3 /\
  entry_count fruit_state (str "banana") = Some 2 /\
  entry_count fruit_state (str "cherry") = Some 1 /\
  row fruit_state 0 = Some (str "apple") /\
  row fruit_state 3 = Some (str "cherry").
Proof. by vm_compute. Qed.

Example scenario_3 :
  exists s', remove 0 fruit_state = Ok true s' /\
    size (self s') = 5%nat /\
    entry_count s' (str "apple") = Some 2 /\
    row s' 0 = Some (str "banana") /\
    row s' 4 = Some (str "apple").
Proof. eexists. split; [reflexivity|]. by vm_compute. Qed.

Example scenario_6 :
  update 0 (any_other "double") seven_state = Ok false seven_state.
Proof. reflexivity. Qed.

(** [store] writes the dictionary in the order of the keys, whatever the
    order of the inserts, and the rows as ordinals into it (on a file
    system that takes the writes). *)
Example store_in_key_order :
  (s <- (insert_range [str "cherry"; str "apple"] ;;; store takes_all "c") ;;
   fun s' => Ok (disk s' !! "c_values"%string,
                 disk s' !! "c_position"%string) s') empty_state
  = Ok (Some (str "1 apple" ++ [newline] ++ str "1 cherry" ++ [newline]),
        Some (str "1" ++ [newline] ++ str "0" ++ [newline]))
       (State [Some (Node (str "cherry") 1); Some (Node (str "apple") 1)]
          (<["c_position"%string := str "1" ++ [newline] ++ str "0" ++ [newline]]>
             (<["c_values"%string :=
                  str "1 apple" ++ [newline] ++ str "1 cherry" ++ [newline]]> ∅))
          (Column [1; 0] [0; 1])%nat).
Proof. by vm_compute. Qed.

Example load_on_rows :
  exists s', load "/tmp/col" fruit_with_files = Ok true s' /\
    size (self s') = 9%nat /\
    entry_count s' (str "apple") = Some 3 /\
    citing (_position (self s')) 0 = 4%nat /\
    row s' 6 = Some (str "date") /\
    row s' 7 = Some (str "apple").
Proof. eexists. split; [reflexivity|]. by vm_compute. Qed.

(** C1 (the code departs from it): on the column of scenario 1, 6 rows
    with "apple" three times, [update(3, "apple")] returns [true] and
    leaves 7 rows, the last one a second new "apple" row, with the count of
    "apple" at 5: the row is rewritten in place and then also appended by
    the closing [insert(new_value)]. *)
Theorem update_appends_a_row :
  size (self fruit_state) = 6%nat /\
  exists s', update 3 (any_T (str "apple")) fruit_state = Ok true s' /\
    size (self s') = 7%nat /\
    row s' 3 = Some (str "apple") /\
    row s' 6 = Some (str "apple") /\
    entry_count s' (str "apple") = Some 5.
Proof. split; [done|]. eexists. split; [reflexivity|]. by vm_compute. Qed.

(** C2 (the code departs from it): [copy()] of the column holding the row 7
    gives a column whose map has a node of its own, at address 1, while its
    row still holds address 0, the node of the source.  The copy reads 7
    there as long as the source keeps the node; after [clearContent()] on
    the source the [get(0)] of the copy reads an erased node, and
    [remove(0)] on the copy erases through its own map a node that map does
    not own. *)
Theorem copy_shares_the_source_nodes :
  copy seven_state = Ok seven_copy seven_copied /\
  _position seven_copy = _position (self seven_state) /\
  (forall a, a ∈ _position seven_copy -> a ∉ _values seven_copy) /\
  row (State (mem seven_copied) ∅ seven_copy) 0 = Some 7 /\
  (exists s', clearContent seven_copied = Ok true s' /\
     get 0 (State (mem s') ∅ seven_copy) = UB) /\
  remove 0 (State (mem seven_copied) ∅ seven_copy) = UB.
Proof.
  split; [reflexivity|]. split; [reflexivity|]. split.
  - intros a Ha Hv. simpl in *.
    apply list_elem_of_singleton in Ha, Hv. congruence.
  - split; [reflexivity|]. split; [|reflexivity].
    eexists. split; reflexivity.
Qed.

(** C9, as stated, fails: on the empty column [get(0)], [remove(0)] and
    [update(0, 7)] do not return a status, they throw
    [std::out_of_range]. *)
Lemma out_of_range_escapes :
  get 0 (empty_state (T:=Z)) = Throw out_of_range empty_state /\
  ~ returns (get 0 (empty_state (T:=Z))) /\
  ~ returns (remove 0 (empty_state (T:=Z))) /\
  ~ returns (update 0 (any_T 7) (empty_state (T:=Z))).
Proof.
  split; [reflexivity|].
  repeat split; intros (x & s & Hr); vm_compute in Hr; discriminate.
Qed.


(** ** More of the column *)

Section More.
Context {T : Type} `{Element T} `{Streamable T}.

(** [operator<] of [T] is a strict total order. *)
Hypothesis less_ok : strict_total T.

(** The file system [store] writes to. *)
Variable written : string -> list ascii -> option (list ascii).

Implicit Types (h : heap T) (s : state T) (n : node T) (a b : addr)
  (vs p : list addr) (v : T).

Tactic Notation "step" uconstr(E) := rewrite (bind_ok _ _ _ _ _ E).

(** *** Rows as a list *)

Lemma rows_lookup s tid :
  (tid < size (self s))%nat -> rows s !! tid = Some (row s tid).
Proof.
  destruct s as [h d [vs p]]. unfold rows, size.
  cbn [mem self _position]. intros Htid.
  rewrite row_eq, list_lookup_fmap.
  destruct (lookup_lt_is_Some_2 p tid Htid) as [a ->]. done.
Qed.

Lemma rows_length s : length (rows s) = size (self s).
Proof. unfold rows, size. by rewrite length_fmap. Qed.

Lemma row_out s tid : (size (self s) <= tid)%nat -> row s tid = None.
Proof.
  destruct s as [h d [vs p]]. unfold size. cbn [self _position]. intros Hge.
  by rewrite row_eq, lookup_ge_None_2.
Qed.

Lemma row_rows s tid : row s tid = mjoin (rows s !! tid).
Proof.
  destruct (decide (tid < size (self s))%nat) as [Hlt|Hge].
  - by rewrite rows_lookup.
  - rewrite row_out by lia. rewrite lookup_ge_None_2; [done|].
    rewrite rows_length. lia.
Qed.

Lemma rows_ext s (l : list (option T)) :
  size (self s) = length l ->
  (forall j, (j < length l)%nat -> l !! j = Some (row s j)) ->
  rows s = l.
Proof.
  intros Hlen Hrows. apply list_eq. intros j.
  destruct (decide (j < length l)%nat) as [Hlt|Hge].
  - rewrite Hrows by done. apply rows_lookup. lia.
  - rewrite !lookup_ge_None_2; [done|lia|]. rewrite rows_length. lia.
Qed.

(** *** [update] *)

Lemma update_rows v tid s :
  inv s -> (tid < size (self s))%nat -> Z.of_nat (size (self s)) < SIZE_MAX ->
  exists s', update tid (any_T v) s = Ok true s' /\ inv s' /\
    disk s' = disk s /\
    rows s' = <[tid := Some v]> (rows s) ++ [Some v].
Proof.
  destruct s as [h d [vs p]]. unfold inv, size, rows.
  cbn [mem disk self _values _position]. intros Hinv Htid Hlen.
  destruct (lookup_lt_is_Some_2 p tid Htid) as [a0 Hp].
  destruct (update_run less_ok v h d vs p tid a0 Hinv Hp)
    as (h1 & vs1 & h2 & vs2 & a1 & h3 & vs3 & a2 & Hrel & Hacq1 & Hacq2 & ->).
  pose proof (delete_Permutation _ _ _ Hp) as Hperm.
  pose proof (inv_released _ _ _ _ _ _ _ Hinv Hrel Hperm) as Hinv1.
  pose proof (inv_raw_map_ok _ _ _ Hinv1) as Hok1.
  destruct (map_ok_acquired _ _ _ _ _ _ Hok1 Hacq1)
    as (Hok2 & Ha1 & (m1 & Hm1 & Hv1) & Hel1 & Hkeys1 & _).
  destruct (map_ok_acquired _ _ _ _ _ _ Hok2 Hacq2)
    as (Hok3 & Ha2 & (m2 & Hm2 & Hv2) & Hel2 & Hkeys2 & _).
  assert (Hinv2 : inv_raw h2 vs2 (<[tid := a1]> p)).
  { eapply inv_acquired; [exact Hinv1|done| |].
    - by apply insert_perm.
    - rewrite length_insert. lia. }
  eexists. split; [done|]. cbn [mem disk self _values _position].
  split; [|split; [done|]].
  - eapply inv_acquired; [exact Hinv2|done| |].
    + symmetry. apply Permutation_cons_append.
    + rewrite length_app, length_insert. simpl. lia.
  - rewrite fmap_app, list_fmap_insert. cbn [fmap list_fmap].
    rewrite Hm2. simpl. rewrite Hv2. f_equal.
    rewrite (Hkeys2 a1 Ha1), Hm1. simpl. rewrite Hv1.
    apply list_eq. intros j.
    destruct (decide (j = tid)) as [->|Hne].
    { rewrite !list_lookup_insert_eq by (rewrite length_fmap; lia). done. }
    rewrite !list_lookup_insert_ne by done.
    rewrite !list_lookup_fmap.
    destruct (p !! j) as [b|] eqn:Hb; [|done]. simpl. f_equal.
    assert (b ∈ delete tid p) as Hbin.
    { apply list_elem_of_lookup.
      destruct (decide (j < tid)%nat).
      - exists j. by rewrite list_lookup_delete_lt.
      - exists (j - 1)%nat. rewrite list_lookup_delete_ge by lia.
        rewrite <- Hb. f_equal. lia. }
    assert (b ∈ vs1) as Hb1 by (by apply Hinv1).
    rewrite Hkeys2 by (apply Hel1; by right).
    rewrite Hkeys1 by done.
    by eapply released_keys.
Qed.

(** X1: [update(tid, v)] with [tid < N] on a consistent column returns
    [true] and leaves the rows as they were except that row [tid] holds
    [v], followed by one more row holding [v]. *)
Theorem update_rewrites_and_appends v (tid : TID) s :
  inv s -> (tid < size (self s))%nat -> Z.of_nat (size (self s)) < SIZE_MAX ->
  exists s', update tid (any_T v) s = Ok true s' /\
    rows s' = <[tid := Some v]> (rows s) ++ [Some v].
Proof.
  intros Hinv Htid Hlen.
  destruct (update_rows v tid s Hinv Htid Hlen) as (s' & Hrun & _ & _ & Hrows).
  by exists s'.
Qed.

Lemma foldl_insert_app (f : list (option T) -> TID -> list (option T))
    (x : option T) (tids : list TID) : forall l,
  (forall l t, length (f l t) = length l) ->
  (forall l t, (t < length l)%nat -> f (l ++ [x]) t = f l t ++ [x]) ->
  Forall (fun t => (t < length l)%nat) tids ->
  foldl f (l ++ [x]) tids = foldl f l tids ++ [x].
Proof.
  induction tids as [|t tids IH]; intros l Hlen Happ Hall; [done|].
  apply Forall_cons in Hall as [Ht Hall]. simpl.
  rewrite Happ by done. apply IH; [done..|].
  eapply Forall_impl; [exact Hall|]. intros t' Ht'. simpl in *.
  by rewrite Hlen.
Qed.

Lemma update_list_run v tids : forall s,
  inv s -> Forall (fun t => (t < size (self s))%nat) tids ->
  Z.of_nat (size (self s) + length tids) <= SIZE_MAX ->
  exists s', update_list tids (any_T v) s = Ok true s' /\ inv s' /\
    rows s' = foldl (fun l t => <[t := Some v]> l) (rows s) tids
              ++ replicate (length tids) (Some v).
Proof.
  induction tids as [|t tids IH]; intros s Hinv Hall Hlen.
  - exists s. simpl. by rewrite app_nil_r.
  - apply Forall_cons in Hall as [Ht Hall]. cbn [length] in Hlen.
    destruct (update_rows v t s Hinv Ht) as (s1 & Hrun & Hinv1 & _ & Hrows1);
      [lia|].
    assert (Hsz1 : size (self s1) = S (size (self s))).
    { rewrite <- !rows_length, Hrows1, length_app, length_insert. simpl. lia. }
    destruct (IH s1 Hinv1) as (s' & Hrun' & Hinv' & Hrows').
    { eapply Forall_impl; [exact Hall|]. intros t' Ht'. simpl in *. lia. }
    { lia. }
    exists s'. cbn [update_list]. step Hrun. split; [done|]. split; [done|].
    rewrite Hrows', Hrows1. cbn [foldl length].
    rewrite foldl_insert_app.
    + rewrite <- app_assoc. f_equal.
    + intros l t'. apply length_insert.
    + intros l t' Ht'. by apply insert_app_l.
    + eapply Forall_impl; [exact Hall|]. intros t' Ht'. simpl in *.
      rewrite length_insert, rows_length. lia.
Qed.

(** X2: [update(tids, v)] with every TID of the list below [N] returns
    [true]; each listed row then holds [v], the other rows are as they
    were, and one row holding [v] is appended per list element. *)
Theorem update_list_rewrites_and_appends v (tids : list TID) s :
  inv s -> Forall (fun t => (t < size (self s))%nat) tids ->
  Z.of_nat (size (self s) + length tids) <= SIZE_MAX ->
  exists s', update_list tids (any_T v) s = Ok true s' /\
    rows s' = foldl (fun l t => <[t := Some v]> l) (rows s) tids
              ++ replicate (length tids) (Some v).
Proof.
  intros Hinv Hall Hlen.
  destruct (update_list_run v tids s Hinv Hall Hlen) as (s' & Hrun & _ & Hrows).
  by exists s'.
Qed.

(** *** The range [insert] *)

Lemma insert_rows v s :
  sound s ->
  exists s', insert v s = Ok true s' /\ sound s' /\
    rows s' = rows s ++ [Some v].
Proof.
  intros Hs.
  destruct (insert_sound less_ok v s Hs)
    as (s' & a & Hrun & Hs' & Hpos & Hrow & Hold & _).
  exists s'. split; [done|]. split; [done|].
  apply rows_ext.
  - unfold size. rewrite Hpos, !length_app, rows_length. done.
  - intros j Hj. rewrite length_app, rows_length in Hj. simpl in Hj.
    destruct (decide (j = size (self s))) as [->|Hne].
    + rewrite lookup_app_r by (rewrite rows_length; lia).
      rewrite rows_length, Nat.sub_diag. simpl. by rewrite Hrow.
    + rewrite lookup_app_l by (rewrite rows_length; lia).
      rewrite Hold by lia. apply rows_lookup. lia.
Qed.

(** X3: the range [insert] on a well-formed column returns [true] and
    appends the values in their order, after the rows that were there. *)
Theorem insert_range_appends_in_order (l : list T) s :
  sound s ->
  exists s', insert_range l s = Ok true s' /\
    rows s' = rows s ++ (Some <$> l).
Proof.
  revert s. induction l as [|v l IH]; intros s Hs.
  - exists s. simpl. by rewrite app_nil_r.
  - destruct (insert_rows v s Hs) as (s1 & Hrun & Hs1 & Hrows1).
    destruct (IH s1 Hs1) as (s' & Hrun' & Hrows').
    exists s'. cbn [insert_range]. step Hrun. split; [done|].
    rewrite Hrows', Hrows1, <- app_assoc. done.
Qed.

(** *** [remove] on a list *)

Lemma remove_rows (tid : TID) s :
  inv s -> (tid < size (self s))%nat ->
  exists s', remove tid s = Ok true s' /\ inv s' /\
    rows s' = delete tid (rows s).
Proof.
  destruct s as [h d [vs p]]. unfold inv, size, rows.
  cbn [mem self _values _position]. intros Hinv Htid.
  destruct (lookup_lt_is_Some_2 p tid Htid) as [a0 Hp].
  destruct (inv_raw_row _ _ _ _ _ Hinv Hp) as (Ha0 & n & Hn).
  destruct (remove_run h d vs p tid a0 n Hp Ha0 Hn) as (h' & vs' & Hrel & ->).
  { apply Hinv. }
  pose proof (delete_Permutation _ _ _ Hp) as Hperm.
  eexists. split; [done|]. cbn [mem self _values _position].
  split; [by eapply inv_released|].
  rewrite <- list_fmap_delete. apply list_fmap_ext. intros i b Hb.
  eapply released_keys; [done..|]. by eapply list_elem_of_lookup_2.
Qed.

Lemma remove_list_run tids : forall s,
  inv s -> in_turn (size (self s)) tids ->
  exists s', remove_list tids s = Ok true s' /\ inv s' /\
    rows s' = foldl (fun l t => delete t l) (rows s) tids.
Proof.
  induction tids as [|t tids IH]; intros s Hinv Hturn.
  - by exists s.
  - destruct Hturn as [Ht Hturn].
    destruct (remove_rows t s Hinv Ht) as (s1 & Hrun & Hinv1 & Hrows1).
    assert (Hsz1 : size (self s1) = (size (self s) - 1)%nat).
    { rewrite <- !rows_length, Hrows1, length_delete; [done|].
      apply lookup_lt_is_Some_2. by rewrite rows_length. }
    rewrite <- Hsz1 in Hturn.
    destruct (IH s1 Hinv1 Hturn) as (s' & Hrun' & Hinv' & Hrows').
    exists s'. cbn [remove_list]. step Hrun. split; [done|]. split; [done|].
    by rewrite Hrows', Hrows1.
Qed.

(** X4: [remove(tids)] takes each TID as the row index of the column as the
    removals before it left it: when each is in range at its turn the call
    returns [true] and the rows are the rows of before with the indices
    deleted one after the other. *)
Theorem remove_list_deletes_in_turn (tids : list TID) s :
  inv s -> in_turn (size (self s)) tids ->
  exists s', remove_list tids s = Ok true s' /\
    rows s' = foldl (fun l t => delete t l) (rows s) tids.
Proof.
  intros Hinv Hturn.
  destruct (remove_list_run tids s Hinv Hturn) as (s' & Hrun & _ & Hrows).
  by exists s'.
Qed.

(** X5: the list [[t; t+1]] does not remove the rows [t] and [t+1] of the
    column: the row that was at [t+1] is afterwards at [t], and the rows
    that were at [t] and [t+2] are gone. *)
Theorem remove_list_ascending_pair (t : TID) s :
  inv s -> (t + 2 < size (self s))%nat ->
  exists s', remove_list [t; (t + 1)%nat] s = Ok true s' /\
    size (self s') = (size (self s) - 2)%nat /\
    (forall j, (j < t)%nat -> row s' j = row s j) /\
    row s' t = row s (t + 1) /\
    (forall j, (t < j)%nat -> row s' j = row s (j + 2)).
Proof.
  intros Hinv Ht.
  destruct (remove_list_run [t; (t + 1)%nat] s Hinv) as (s' & Hrun & _ & Hrows).
  { simpl. lia. }
  exists s'. split; [done|]. simpl in Hrows.
  assert (Hrow : forall j, row s' j
            = mjoin (delete (t + 1)%nat (delete t (rows s)) !! j)).
  { intros j. by rewrite row_rows, Hrows. }
  split; [|split; [|split]].
  - rewrite <- !rows_length, Hrows, !length_delete.
    + lia.
    + apply lookup_lt_is_Some_2. rewrite rows_length. lia.
    + apply lookup_lt_is_Some_2. rewrite length_delete, rows_length; [lia|].
      apply lookup_lt_is_Some_2. rewrite rows_length. lia.
  - intros j Hj. rewrite Hrow, !list_lookup_delete_lt by lia.
    by rewrite <- row_rows.
  - rewrite Hrow, list_lookup_delete_lt, list_lookup_delete_ge by lia.
    rewrite row_rows. do 2 f_equal. lia.
  - intros j Hj. rewrite Hrow, !list_lookup_delete_ge by lia.
    rewrite row_rows. do 2 f_equal. lia.
Qed.

Lemma remove_list_app pre rest : forall s s1,
  remove_list pre s = Ok true s1 ->
  remove_list (pre ++ rest) s = remove_list rest s1.
Proof.
  induction pre as [|t pre IH]; intros s s1 Hrun.
  - simpl in Hrun. by injection Hrun as <-.
  - cbn [remove_list app] in *. unfold bind in *.
    destruct (remove t s) as [ok s0| |]; [|done..].
    destruct ok; [|done]. by apply IH.
Qed.

Lemma foldl_delete_length (tids : list TID) : forall (l : list (option T)),
  in_turn (length l) tids ->
  length (foldl (fun l t => delete t l) l tids) = (length l - length tids)%nat.
Proof.
  induction tids as [|t tids IH]; intros l Hturn; simpl; [lia|].
  destruct Hturn as [Ht Hturn].
  assert (Hlen : length (delete t l) = (length l - 1)%nat).
  { apply length_delete. by apply lookup_lt_is_Some_2. }
  rewrite IH by (by rewrite Hlen). lia.
Qed.

(** X6: [remove(tids)] stops at the first TID that is out of range at its
    turn: it throws [std::out_of_range], and the removals made before it
    stay. *)
Theorem remove_list_stops_at_bad_tid (pre : list TID) (t : TID) rest s :
  inv s -> in_turn (size (self s)) pre ->
  (size (self s) - length pre <= t)%nat ->
  exists s1, remove_list pre s = Ok true s1 /\
    rows s1 = foldl (fun l t => delete t l) (rows s) pre /\
    remove_list (pre ++ t :: rest) s = Throw out_of_range s1.
Proof.
  intros Hinv Hturn Ht.
  destruct (remove_list_run pre s Hinv Hturn) as (s1 & Hrun & _ & Hrows).
  exists s1. split; [done|]. split; [done|].
  rewrite (remove_list_app pre (t :: rest) s s1 Hrun).
  cbn [remove_list]. unfold remove.
  assert (Hsz : size (self s1) = (size (self s) - length pre)%nat).
  { rewrite <- rows_length, Hrows, foldl_delete_length, rows_length; [done|].
    by rewrite rows_length. }
  rewrite (bind_throw _ _ s1 out_of_range s1); [done|].
  apply at_out_of_range. lia.
Qed.

Lemma in_turn_front (k : nat) : in_turn k (replicate k 0%nat).
Proof.
  induction k as [|k IH]; [done|]. simpl. split; [lia|].
  by rewrite Nat.sub_0_r.
Qed.

(** X7: removing row 0 as many times as there are rows leaves the empty
    column: no row and no dictionary entry. *)
Theorem remove_every_row_empties s :
  inv s ->
  exists s', remove_list (replicate (size (self s)) 0%nat) s = Ok true s' /\
    self s' = Column [] [].
Proof.
  intros Hinv.
  destruct (remove_list_run (replicate (size (self s)) 0%nat) s Hinv)
    as (s' & Hrun & Hinv' & Hrows); [apply in_turn_front|].
  exists s'. split; [done|].
  assert (Hsz : size (self s') = 0%nat).
  { rewrite <- rows_length, Hrows, foldl_delete_length.
    - rewrite length_replicate, rows_length. lia.
    - rewrite rows_length. apply in_turn_front. }
  pose proof (inv_raw_dictionary_small _ _ _ Hinv') as Hsmall.
  destruct s' as [h' d' [vs' p']]. unfold size in *.
  cbn [self _values _position] in *.
  destruct p'; [|done]. destruct vs'; [done|]. simpl in Hsmall. lia.
Qed.

(** *** Reading through another store of nodes *)

Lemma find_from_related v (l1 l2 : list addr) s1 s2 :
  Forall2 (fun a b => live (mem s1) a = live (mem s2) b /\
                      is_Some (live (mem s2) b)) l1 l2 ->
  match find_from v l1 s1, find_from v l2 s2 with
  | Ok (Some a) s1', Ok (Some b) s2' =>
      live (mem s1) a = live (mem s2) b /\ s1' = s1 /\ s2' = s2
  | Ok None s1', Ok None s2' => s1' = s1 /\ s2' = s2
  | _, _ => False
  end.
Proof.
  induction 1 as [|a b l1 l2 [Hab [n Hn]] Hall IH]; [done|].
  cbn [find_from]. unfold bind, deref. rewrite Hab, Hn.
  by destruct (equiv_key (first n) v).
Qed.

Lemma entry_count_related v s1 s2 :
  Forall2 (fun a b => live (mem s1) a = live (mem s2) b /\
                      is_Some (live (mem s2) b))
    (_values (self s1)) (_values (self s2)) ->
  entry_count s1 v = entry_count s2 v.
Proof.
  intros Hall. unfold entry_count, map_find.
  pose proof (find_from_related v _ _ s1 s2 Hall) as Hrel.
  destruct (find_from v (_values (self s1)) s1) as [[a|] s1'| |];
    destruct (find_from v (_values (self s2)) s2) as [[b|] s2'| |];
    try done.
  by destruct Hrel as (-> & _ & _).
Qed.

(** What a column reads does not depend on nodes allocated or erased
    elsewhere in the store. *)
Lemma same_nodes_same_reads s s2 :
  sound s -> self s2 = self s ->
  (forall b, b ∈ _values (self s) -> live (mem s2) b = live (mem s) b) ->
  rows s2 = rows s /\ forall w, entry_count s2 w = entry_count s w.
Proof.
  intros (Hnd & Hlive & Hinj & Hrows) Hself Hsame. split.
  - unfold rows. rewrite Hself. apply list_fmap_ext. intros i a Ha.
    rewrite Hsame; [done|]. apply Hrows. by eapply list_elem_of_lookup_2.
  - intros w. apply entry_count_related. rewrite Hself.
    apply Forall2_same_length_lookup_2; [done|].
    intros i a b Ha Hb. rewrite Ha in Hb. injection Hb as <-.
    apply list_elem_of_lookup_2 in Ha.
    split; [by apply Hsame | by apply Hlive].
Qed.

(** *** [clearContent] *)

Lemma free_all_heap d c l : forall h,
  NoDup l -> (forall a, a ∈ l -> is_Some (live h a)) ->
  exists h', free_all l (State h d c) = Ok tt (State h' d c) /\
    (forall a, a ∈ l -> live h' a = None) /\
    (forall b, b ∉ l -> live h' b = live h b).
Proof.
  induction l as [|a l IH]; intros h Hnd Hlive.
  - exists h. split; [done|]. split; [|done].
    intros a Ha. by apply elem_of_nil in Ha.
  - destruct (Hlive a) as [n Hn]; [left|].
    apply NoDup_cons in Hnd as [Hnotin Hnd].
    destruct (IH (<[a := None]> h) Hnd) as (h' & Hrun & Hdead & Hother).
    { intros b Hb. rewrite live_insert_ne by (intros ->; done).
      apply Hlive. by right. }
    exists h'. cbn [free_all]. step (deref_live _ _ _ _ _ Hn).
    unfold bind at 1. unfold with_mem. cbn [mem disk self].
    split; [done|]. split.
    + intros b [->|Hb]%elem_of_cons; [|by apply Hdead].
      rewrite Hother by done. apply live_insert_eq. by eapply live_Some_lt.
    + intros b Hb. apply not_elem_of_cons in Hb as [Hne Hb].
      rewrite Hother by done. by apply live_insert_ne.
Qed.

(** X8: [clearContent()] on a well-formed column returns [true] and leaves
    no row and no dictionary entry; it erases every node of its own map and
    touches no other node of the store, and no file. *)
Theorem clearContent_erases_own_nodes s :
  sound s ->
  exists s', clearContent s = Ok true s' /\
    self s' = Column [] [] /\ disk s' = disk s /\
    (forall a, a ∈ _values (self s) -> live (mem s') a = None) /\
    (forall b, b ∉ _values (self s) -> live (mem s') b = live (mem s) b).
Proof.
  destruct s as [h d [vs p]]. unfold sound.
  cbn [mem disk self _values _position]. intros (Hnd & Hlive & _).
  destruct (free_all_heap d (Column vs []) vs h Hnd Hlive)
    as (h' & Hrun & Hdead & Hother).
  exists (State h' d (Column [] [])). split; [|done].
  unfold clearContent, map_clear, bind, with_position.
  cbn [mem disk self _values _position]. by rewrite Hrun.
Qed.

(** *** [copy] *)

(** X9: right after [copy()] on a well-formed column, the column returned
    reads like the source: the same rows and the same count for every
    value; the source, its rows, its counts and the files are as before. *)
Theorem copy_reads_like_source s :
  sound s ->
  exists c s', copy s = Ok c s' /\
    self s' = self s /\ disk s' = disk s /\
    rows s' = rows s /\ (forall w, entry_count s' w = entry_count s w) /\
    rows (State (mem s') (disk s') c) = rows s /\
    (forall w, entry_count (State (mem s') (disk s') c) w = entry_count s w).
Proof.
  intros Hs. pose proof Hs as (Hnd & Hlive & Hinj & Hrows).
  destruct s as [h d [vs p]]. cbn [mem disk self _values _position] in *.
  assert (Hold : forall b, b ∈ vs -> live (h ++ (live h <$> vs)) b = live h b).
  { intros b Hb. destruct (Hlive b Hb) as [n Hn].
    unfold live at 1. rewrite lookup_app_l by (by eapply live_Some_lt). done. }
  eexists _, _. unfold copy. cbn [self _values _position].
  step (copy_nodes_spec d (Column vs p) vs h Hlive). unfold ret.
  split; [done|]. split; [done|]. split; [done|].
  cbn [mem disk self].
  destruct (same_nodes_same_reads (State h d (Column vs p))
              (State (h ++ (live h <$> vs)) d (Column vs p)) Hs eq_refl Hold)
    as [Hr Hc].
  split; [done|]. split; [done|]. split.
  - unfold rows. cbn [mem self _position]. apply list_fmap_ext.
    intros i a Ha. rewrite Hold; [done|].
    apply Hrows. by eapply list_elem_of_lookup_2.
  - intros w. apply entry_count_related. cbn [mem self _values].
    apply Forall2_same_length_lookup_2; [by rewrite length_seq|].
    intros i a b Ha Hb. apply lookup_seq in Ha as [-> Hi].
    pose proof (list_elem_of_lookup_2 _ _ _ Hb) as Hbin.
    split; [|by apply Hlive].
    unfold live at 1. rewrite lookup_app_r by lia.
    replace (length h + i - length h)%nat with i by lia.
    by rewrite list_lookup_fmap, Hb.
Qed.

(** *** [insert] then [remove] *)

Lemma filter_take_drop_insert (vs : list addr) i a :
  a ∉ vs -> filter (fun b => b <> a) (take i vs ++ a :: drop i vs) = vs.
Proof.
  intros Ha.
  assert (Hkeep : forall l : list addr, a ∉ l -> filter (fun b => b <> a) l = l).
  { induction l as [|x l IH]; intros Hl; [done|].
    apply not_elem_of_cons in Hl as [Hne Hl].
    rewrite filter_cons_True by done. by rewrite IH. }
  rewrite filter_app, filter_cons_False by (intros Hne; by apply Hne).
  rewrite !Hkeep.
  - apply take_drop.
  - intros Hin. apply Ha. rewrite <- (take_drop i vs).
    apply elem_of_app. by right.
  - intros Hin. apply Ha. rewrite <- (take_drop i vs).
    apply elem_of_app. by left.
Qed.

(** X10: on a consistent column, [insert(v)] followed by [remove] of the
    row it appended gives back the column: the same rows and the same count
    for every value, a new entry for [v] being erased again. *)
Theorem insert_then_remove_restores v s :
  inv s -> Z.of_nat (size (self s)) < SIZE_MAX ->
  exists s1 s2, insert v s = Ok true s1 /\
    remove (size (self s)) s1 = Ok true s2 /\
    self s2 = self s /\ rows s2 = rows s /\
    forall w, entry_count s2 w = entry_count s w.
Proof.
  intros Hinv Hlen. pose proof (inv_sound s Hinv) as Hs.
  destruct s as [h d [vs p]]. unfold inv, size in *.
  cbn [mem disk self _values _position] in *.
  pose proof (inv_raw_map_ok _ _ _ Hinv) as Hok.
  destruct (insert_run less_ok v h d vs p Hok) as (h1 & vs1 & a & Hacq & Hrun1).
  assert (Hinv1 : inv_raw h1 vs1 (p ++ [a])).
  { eapply inv_acquired; [done..| |].
    - symmetry. apply Permutation_cons_append.
    - rewrite length_app. simpl. lia. }
  assert (Hp : (p ++ [a]) !! length p = Some a).
  { rewrite lookup_app_r, Nat.sub_diag by lia. done. }
  destruct (inv_raw_row _ _ _ _ _ Hinv1 Hp) as (Ha1 & n1 & Hn1).
  destruct (remove_run h1 d vs1 (p ++ [a]) (length p) a n1 Hp Ha1 Hn1)
    as (h2 & vs2 & Hrel & Hrun2); [apply Hinv1|].
  assert (Hdel : delete (length p) (p ++ [a]) = p).
  { rewrite delete_take_drop, take_app_length.
    rewrite drop_ge; [apply app_nil_r|]. rewrite length_app. simpl. lia. }
  rewrite Hdel in Hrun2.
  assert (Hsame : vs2 = vs /\ forall b, b ∈ vs -> live h2 b = live h b).
  { destruct Hacq as [a n Ha Hn Hv | i Habs Hi].
    - pose proof (live_Some_lt _ _ _ Hn) as Hlt.
      rewrite live_insert_eq in Hn1 by done. injection Hn1 as <-.
      destruct Hinv as (_ & Hcnt & _). destruct (Hcnt a n Ha Hn) as [Hsec Hpos].
      pose proof (citing_le p a) as Hle.
      assert (Hback : decr (incr (second n)) = second n).
      { rewrite incr_small by lia. unfold decr. rewrite wrap_small; lia. }
      inversion Hrel as [m Hm Hnz | m Hm Hz]; subst;
        rewrite live_insert_eq in Hm by done; injection Hm as <-;
        cbn [first second] in *; rewrite Hback in *; [|lia].
      split; [done|]. intros b Hb. rewrite list_insert_insert_eq.
      destruct (decide (a = b)) as [<-|Hne].
      + rewrite live_insert_eq by done. rewrite Hn. by destruct n.
      + by rewrite live_insert_ne.
    - rewrite live_app_new in Hn1. injection Hn1 as <-.
      pose proof (map_ok_fresh _ _ Hok) as Hfresh.
      inversion Hrel as [m Hm Hnz | m Hm Hz]; subst;
        rewrite live_app_new in Hm; injection Hm as <-;
        cbn [first second] in *; [by vm_compute in Hnz|].
      split; [by apply filter_take_drop_insert|].
      intros b Hb. destruct Hok as (_ & Hlive & _).
      destruct (Hlive b Hb) as [m Hm]. pose proof (live_Some_lt _ _ _ Hm).
      rewrite live_insert_ne by lia. by apply live_app_old. }
  destruct Hsame as [-> Hsame].
  eexists _, _. split; [exact Hrun1|]. split; [exact Hrun2|].
  split; [done|].
  by apply (same_nodes_same_reads (State h d (Column vs p))
              (State h2 d (Column vs p)) Hs eq_refl).
Qed.

(** *** The counts add up *)

Lemma sum_list_mark (f : addr -> nat) (x : addr) (vs : list addr) :
  NoDup vs -> x ∈ vs ->
  sum_list ((fun a => if decide (x = a) then S (f a) else f a) <$> vs)
  = S (sum_list (f <$> vs)).
Proof.
  induction vs as [|y vs IH]; intros Hnd Hx; [by apply elem_of_nil in Hx|].
  apply NoDup_cons in Hnd as [Hnotin Hnd]. rewrite !fmap_cons.
  change (sum_list (?a :: ?l)) with (a + sum_list l)%nat.
  destruct (decide (x = y)) as [->|Hne].
  - rewrite (list_fmap_ext
               (fun a => if decide (y = a) then S (f a) else f a) f vs); [lia|].
    intros i a Ha. rewrite decide_False; [done|]. intros ->.
    apply Hnotin. by eapply list_elem_of_lookup_2.
  - apply elem_of_cons in Hx as [->|Hx]; [done|].
    rewrite IH by done. lia.
Qed.

Lemma citing_sum vs p :
  NoDup vs -> (forall x, x ∈ p -> x ∈ vs) ->
  sum_list (citing p <$> vs) = length p.
Proof.
  intros Hnd. induction p as [|x p IH]; intros Hin.
  - clear Hnd Hin. induction vs as [|y vs IHvs]; [done|].
    rewrite fmap_cons.
    change (sum_list (?a :: ?l)) with (a + sum_list l)%nat.
    by rewrite IHvs.
  - rewrite (list_fmap_ext (citing (x :: p))
               (fun a => if decide (x = a) then S (citing p a) else citing p a)).
    + rewrite sum_list_mark; [|done|apply Hin; by left].
      rewrite IH; [done|]. intros y Hy. apply Hin. by right.
    + intros i a _. apply citing_cons.
Qed.

(** X11: on a consistent column the counts of the dictionary add up to
    [size()], and there are at most [size()] entries. *)
Theorem counts_add_up_to_size s :
  inv s ->
  foldr Z.add 0 (counts s) = Z.of_nat (size (self s)) /\
  (length (_values (self s)) <= size (self s))%nat.
Proof.
  intros Hinv. split; [|exact (inv_raw_dictionary_small _ _ _ Hinv)].
  destruct s as [h d [vs p]]. unfold inv, size, counts in *.
  cbn [mem self _values _position] in *.
  destruct Hinv as ((Hnd & Hlive & _ & Hrows) & Hcnt & _).
  rewrite <- (citing_sum vs p Hnd Hrows).
  assert (Hall : forall a, a ∈ vs ->
            second <$> live h a = Some (Z.of_nat (citing p a))).
  { intros a Ha. destruct (Hlive a Ha) as [n Hn].
    destruct (Hcnt a n Ha Hn) as [Hsec _]. by rewrite Hn, <- Hsec. }
  clear Hnd Hlive Hrows Hcnt.
  induction vs as [|a vs IH]; [done|].
  cbn [omap list_omap]. rewrite Hall by left. rewrite fmap_cons.
  change (sum_list (?x :: ?l)) with (x + sum_list l)%nat.
  cbn [foldr]. rewrite IH by (intros b Hb; apply Hall; by right). lia.
Qed.

(** *** [get] and [operator[]] *)

(** X12: on a well-formed column, with [TID] at least 32 bits wide and
    [index] an [int]: for [0 <= index < N], [get(index)] and
    [operator[](index)] return the value of the row and leave the state as
    it is; with [N <= index], and with [index < 0] on a column of at most
    [2^31] rows, [operator[]] throws [std::out_of_range]. *)
Theorem subscript_reads_like_get (tid_bits index : Z) s :
  sound s -> 32 <= tid_bits -> INT_MIN <= index <= INT_MAX ->
  (0 <= index < Z.of_nat (size (self s)) ->
   exists v, row s (Z.to_nat index) = Some v /\
     get (Z.to_nat index) s = Ok (any_T v) s /\
     subscript tid_bits index s = Ok v s) /\
  (Z.of_nat (size (self s)) <= index ->
   subscript tid_bits index s = Throw out_of_range s) /\
  (index < 0 -> Z.of_nat (size (self s)) <= 2 ^ 31 ->
   subscript tid_bits index s = Throw out_of_range s).
Proof.
  unfold INT_MIN, INT_MAX. intros Hs Hbits Hint.
  assert (Hpow : 2 ^ 32 <= 2 ^ tid_bits) by (apply Z.pow_le_mono_r; lia).
  change (2 ^ 32) with 4294967296 in Hpow.
  change (2 ^ 31) with 2147483648 in *.
  split; [|split].
  - intros Hin. unfold subscript. rewrite Z.mod_small by lia.
    destruct s as [h d [vs p]]. unfold size, sound in *.
    cbn [mem self _values _position] in *.
    destruct (lookup_lt_is_Some_2 p (Z.to_nat index)) as [a Ha]; [lia|].
    destruct (sound_row _ _ _ _ _ Hs Ha) as (_ & n & Hn).
    exists (first n). split; [by rewrite row_eq, Ha, Hn|].
    unfold get, bind, vec_at, deref. cbn [mem self _position].
    rewrite Ha. unfold ret. cbn [mem]. by rewrite Hn.
  - intros Hge. unfold subscript. rewrite Z.mod_small by lia.
    apply at_out_of_range. lia.
  - intros Hneg Hsmall. unfold subscript. apply at_out_of_range.
    assert (index mod 2 ^ tid_bits = index + 2 ^ tid_bits) as ->; [|lia].
    symmetry. apply (Z.mod_unique _ _ (-1)); lia.
Qed.

(** *** [load] on files that do not fit *)

Lemma load_values_nothing fuel input refs s :
  parse_values fuel input = [] -> load_values fuel input refs s = Ok refs s.
Proof.
  destruct fuel as [|fuel]; [done|]. simpl.
  destruct (extract_size_t input) as [[occuring input']|]; [|done].
  by destruct (extract input') as [[value input'']|].
Qed.

Lemma load_position_nothing fuel input refs s :
  parse_ordinals fuel input = [] -> load_position fuel input refs s = Ok tt s.
Proof.
  destruct fuel as [|fuel]; [done|]. simpl.
  by destruct (extract_size_t input) as [[pointer input']|].
Qed.

(** X13: when the loops of [load] can read nothing from either file (a
    file that is missing or empty, or that does not begin with what the
    loop extracts), [load] still returns [true], and the column is as
    before. *)
Theorem load_of_nothing_succeeds path s :
  file_values s path = [] -> file_ordinals s path = [] ->
  load path s = Ok true s.
Proof.
  unfold file_values, file_ordinals. intros Hv Ho.
  unfold load, bind, read_file.
  by rewrite (load_values_nothing _ _ _ _ Hv), (load_position_nothing _ _ _ _ Ho).
Qed.

Lemma load_position_bad h d vs refs fuel : forall input p,
  Exists (fun o => (length refs <= Z.to_nat o)%nat) (parse_ordinals fuel input) ->
  load_position fuel input refs (State h d (Column vs p)) = UB.
Proof.
  induction fuel as [|fuel IH]; intros input p Hex.
  - by apply Exists_nil in Hex.
  - simpl in *. destruct (extract_size_t input) as [[pointer input']|].
    2:{ by apply Exists_nil in Hex. }
    destruct (refs !! Z.to_nat pointer) as [ref|] eqn:Href; [|done].
    apply Exists_cons in Hex as [Hbad|Hex].
    { apply lookup_lt_Some in Href. lia. }
    unfold bind at 1. unfold push_back, with_position.
    cbn [mem disk self _values _position]. by apply IH.
Qed.

(** X14: [load] does not check the ordinals it reads: on a well-formed
    column, an ordinal in the [_position] file that is not below the number
    of lines read from the [_values] file makes [refs[pointer]] an access
    out of bounds, undefined behaviour. *)
Theorem load_ordinal_out_of_bounds path s :
  sound s ->
  Exists (fun o => (length (file_values s path) <= Z.to_nat o)%nat)
    (file_ordinals s path) ->
  load path s = UB.
Proof.
  destruct s as [h d [vs p]]. unfold sound, file_values, file_ordinals.
  cbn [mem disk self _values _position].
  set (vt := default [] (d !! file_name (path +:+ "_values"))).
  set (pt := default [] (d !! file_name (path +:+ "_position"))).
  intros Hs Hex. pose proof (sound_raw_map_ok _ _ _ Hs) as Hok.
  destruct (load_values_gen less_ok d p (S (length vt)) vt [] h vs Hok)
    as (hn & vs' & refs & Hvals & _ & _ & Hrefs).
  rewrite <- (Forall2_length _ _ _ Hrefs) in Hex.
  unfold load, bind, read_file. cbn [disk]. fold vt pt.
  simpl app in Hvals. rewrite Hvals.
  by rewrite (load_position_bad _ _ _ _ _ _ _ Hex).
Qed.

(** *** What [store] writes *)

(** X15: [store(p)] on a consistent column returns [true] whatever becomes
    of its two streams, and changes neither the column, nor a node, nor any
    file but the two of [p_values] and [p_position].  When both files take
    what is written to them, they exist afterwards; when neither stream
    opens, no file is changed at all, and the result is [true] all the
    same. *)
Theorem store_returns_true_regardless path s :
  inv s ->
  exists s1, store written path s = Ok true s1 /\
    mem s1 = mem s /\ self s1 = self s /\
    (forall q, q <> file_name (path +:+ "_values") ->
       q <> file_name (path +:+ "_position") ->
       disk s1 !! q = disk s !! q) /\
    (writable written (path +:+ "_values") ->
     writable written (path +:+ "_position") ->
     is_Some (disk s1 !! file_name (path +:+ "_values")) /\
     is_Some (disk s1 !! file_name (path +:+ "_position"))) /\
    (unwritable written (path +:+ "_values") ->
     unwritable written (path +:+ "_position") ->
     disk s1 = disk s).
Proof.
  destruct s as [h d [vs p]]. unfold inv.
  cbn [mem disk self _values _position]. intros Hinv.
  destruct (store_run less_ok written path h d vs p Hinv)
    as (ns & js & _ & _ & ->).
  eexists. split; [done|]. cbn [mem disk self].
  split; [done|]. split; [done|]. split; [|split].
  - intros q Hq1 Hq2. by rewrite !fs_write_other.
  - intros Hwv Hwp. rewrite !fs_write_writable by done. split.
    + destruct (decide (file_name (path +:+ "_values")
                        = file_name (path +:+ "_position"))) as [->|Hne].
      * by rewrite lookup_insert_eq.
      * rewrite lookup_insert_ne by done. by rewrite lookup_insert_eq.
    + by rewrite lookup_insert_eq.
  - intros Hwv Hwp. by rewrite !fs_write_unwritable.
Qed.


(** *** The column that [load] builds from [store]'s files *)





(** *** Counts by value *)

Lemma holding_citing h d vs p a n :
  map_ok h vs -> (forall x, x ∈ p -> x ∈ vs) ->
  a ∈ vs -> live h a = Some n ->
  holding (State h d (Column vs p)) (first n) = citing p a.
Proof.
  intros (_ & Hlive & Hinj) Hp Ha Hn. unfold holding, rows.
  cbn [mem self _position].
  induction p as [|x p IH]; [done|].
  rewrite fmap_cons, filter_cons, citing_cons.
  destruct (Hlive x (Hp x ltac:(left))) as [m Hm].
  rewrite Hm. cbn [fmap option_fmap option_map from_option].
  specialize (IH (fun y Hy => Hp y ltac:(by right))).
  destruct (decide (equiv_key (first m) (first n) = true)) as [He|He];
    destruct (decide (x = a)) as [->|Hne]; cbn [length]; rewrite ?IH; try done.
  - exfalso. apply Hne. apply equiv_key_eq in He; [|done].
    apply (Hinj x a m n); [apply Hp; left|done..].
  - exfalso. apply He. apply equiv_key_eq; [done|]. congruence.
Qed.

Lemma holding_absent h d vs p v :
  map_ok h vs -> (forall x, x ∈ p -> x ∈ vs) ->
  (forall a n, a ∈ vs -> live h a = Some n -> first n <> v) ->
  holding (State h d (Column vs p)) v = 0%nat.
Proof.
  intros (_ & Hlive & _) Hp Hout. unfold holding, rows.
  cbn [mem self _position].
  induction p as [|x p IH]; [done|].
  rewrite fmap_cons, filter_cons.
  destruct (Hlive x (Hp x ltac:(left))) as [m Hm].
  rewrite Hm. cbn [fmap option_fmap option_map from_option].
  specialize (IH (fun y Hy => Hp y ltac:(by right))).
  destruct (decide (equiv_key (first m) v = true)) as [He|He]; [|done].
  exfalso. apply equiv_key_eq in He; [|done].
  apply (Hout x m); [apply Hp; left|done..].
Qed.

(** X18: on a consistent column the dictionary counts by value: a value
    that no row holds has no entry, and the entry of any other value carries
    the number of rows that hold it. *)
Theorem entry_count_is_row_count v s :
  inv s ->
  entry_count s v
  = match holding s v with
    | O => None
    | S _ => Some (Z.of_nat (holding s v))
    end.
Proof.
  destruct s as [h d [vs p]]. unfold inv.
  cbn [mem self _values _position]. intros Hinv.
  pose proof Hinv as ((_ & _ & _ & Hrows) & Hcnt & _).
  pose proof (inv_raw_map_ok _ _ _ Hinv) as Hok.
  destruct (map_find_spec less_ok v h d vs p Hok) as (r & _ & Hr).
  destruct r as [a|].
  - destruct Hr as (Ha & n & Hla & <-).
    rewrite (entry_count_present less_ok _ _ _ _ a) by done.
    rewrite (holding_citing h d vs p a n) by done.
    destruct (Hcnt a n Ha Hla) as [-> Hpos].
    destruct (citing p a); [lia|done].
  - rewrite (entry_count_absent less_ok) by done.
    by rewrite (holding_absent h d vs p v).
Qed.

(** *** The list [update] on holders and TIDs it does not accept *)

(** X19: [update(tids, a)] with a holder that is empty or holds another
    type changes nothing, and returns [false] unless the list of TIDs is
    empty: with no TID to visit the holder is never looked at and the
    result is [true]. *)
Theorem update_list_mistyped tids (a : any T) s :
  (forall v, a <> any_T v) ->
  update_list tids a s = Ok (bool_decide (tids = [])) s.
Proof.
  intros Ha. destruct tids as [|t tids].
  { by rewrite bool_decide_eq_true_2. }
  rewrite bool_decide_eq_false_2 by done.
  cbn [update_list]. unfold bind.
  destruct a as [|v|ty]; [done| |done]. by destruct (Ha v).
Qed.

Lemma update_list_app v pre rest : forall s s1,
  update_list pre (any_T v) s = Ok true s1 ->
  update_list (pre ++ rest) (any_T v) s = update_list rest (any_T v) s1.
Proof.
  induction pre as [|t pre IH]; intros s s1 Hrun.
  - simpl in Hrun. by injection Hrun as <-.
  - cbn [update_list app] in *. unfold bind in *.
    destruct (update t (any_T v) s) as [ok s0| |]; [|done..].
    destruct ok; [|done]. by apply IH.
Qed.

Lemma update_list_run_in_turn v tids : forall s,
  inv s -> in_turn_growing (size (self s)) tids ->
  Z.of_nat (size (self s) + length tids) <= SIZE_MAX ->
  exists s', update_list tids (any_T v) s = Ok true s' /\ inv s' /\
    size (self s') = (size (self s) + length tids)%nat /\
    rows s' = foldl (fun l t => <[t := Some v]> l ++ [Some v]) (rows s) tids.
Proof.
  induction tids as [|t tids IH]; intros s Hinv Hturn Hlen.
  - exists s. split; [done|]. split; [done|]. split; [|done].
    cbn [length]. lia.
  - destruct Hturn as [Ht Hturn]. cbn [length] in Hlen.
    destruct (update_rows v t s Hinv Ht) as (s1 & Hrun & Hinv1 & _ & Hrows1);
      [lia|].
    assert (Hsz1 : size (self s1) = S (size (self s))).
    { rewrite <- !rows_length, Hrows1, length_app, length_insert. simpl. lia. }
    destruct (IH s1 Hinv1) as (s' & Hrun' & Hinv' & Hsz' & Hrows').
    { by rewrite Hsz1. }
    { lia. }
    exists s'. cbn [update_list]. step Hrun. split; [done|]. split; [done|].
    split.
    + rewrite Hsz', Hsz1. cbn [length]. lia.
    + rewrite Hrows', Hrows1. done.
Qed.

(** X20: on a consistent column of [N] rows, with [N] plus the number of
    TIDs before the bad one at most [SIZE_MAX]: [update(tids, v)] stops at
    the first TID that is out of range when its turn comes (the [i]-th TID
    is in range when it is below [N + i], each earlier update having added
    a row): it throws [std::out_of_range] there, and the updates of the
    TIDs before it, each a row rewritten and a row appended, stay. *)
Theorem update_list_stops_at_bad_tid v (pre : list TID) (t : TID) rest s :
  inv s -> in_turn_growing (size (self s)) pre ->
  Z.of_nat (size (self s) + length pre) <= SIZE_MAX ->
  (size (self s) + length pre <= t)%nat ->
  exists s1, update_list pre (any_T v) s = Ok true s1 /\
    rows s1 = foldl (fun l t' => <[t' := Some v]> l ++ [Some v]) (rows s) pre /\
    update_list (pre ++ t :: rest) (any_T v) s = Throw out_of_range s1.
Proof.
  intros Hinv Hturn Hmax Ht.
  destruct (update_list_run_in_turn v pre s Hinv Hturn Hmax)
    as (s1 & Hrun & _ & Hsz & Hrows).
  exists s1. split; [done|]. split; [done|].
  rewrite (update_list_app v pre (t :: rest) s s1 Hrun).
  cbn [update_list]. unfold update.
  rewrite (bind_throw _ _ s1 out_of_range s1); [done|].
  apply at_out_of_range. lia.
Qed.

End More.

(** ** The theorems at the example columns *)


Lemma counts_match_rows_witness :
  strict_total Z /\
  Z.of_nat (total_calls some_calls) <= SIZE_MAX /\
  exists s, run_ops some_calls empty_state = Some s /\
    forall a, a ∈ _values (self s) ->
      exists n, live (mem s) a = Some n /\
        second n = Z.of_nat (citing (_position (self s)) a) /\
        second n <> 0.
Proof.
  assert (Hlen : Z.of_nat (total_calls some_calls) <= SIZE_MAX).
  { vm_compute. discriminate. }
  split; [exact int_strict_total|]. split; [exact Hlen|].
  exact (counts_match_rows int_strict_total some_calls Hlen).
Defined.

Lemma remove_shifts_rows_witness :
  strict_total (list ascii) /\
  inv fruit_state /\
  ((0 < size (self fruit_state))%nat ->
   exists s' v c, row fruit_state 0 = Some v /\
     entry_count fruit_state v = Some c /\
     remove 0 fruit_state = Ok true s' /\
     entry_count s' v = (if c =? 1 then None else Some (c - 1)) /\
     _position (self s') = delete 0%nat (_position (self fruit_state)) /\
     size (self s') = (size (self fruit_state) - 1)%nat /\
     (forall j, (0 < j < size (self fruit_state))%nat ->
        row s' (j - 1) = row fruit_state j) /\
     (forall j, (j < 0)%nat -> row s' j = row fruit_state j)) /\
  ((size (self fruit_state) <= 0)%nat ->
   remove 0 fruit_state = Throw out_of_range fruit_state).
Proof.
  split; [exact string_strict_total|]. split; [exact fruit_state_inv|].
  exact (remove_shifts_rows string_strict_total 0%nat fruit_state
           fruit_state_inv).
Defined.

Lemma insert_appends_row_witness :
  strict_total (list ascii) /\
  sound fruit_state /\
  (exists s' a n, insert (str "banana") fruit_state = Ok true s' /\
     sound s' /\
     _position (self s') = _position (self fruit_state) ++ [a] /\
     a ∈ _values (self s') /\
     live (mem s') a = Some n /\ first n = str "banana" /\
     entry_count s' (str "banana") = Some (second n) /\
     size (self s') = S (size (self fruit_state)) /\
     row s' (size (self fruit_state)) = Some (str "banana") /\
     (forall tid, (tid < size (self fruit_state))%nat ->
        row s' tid = row fruit_state tid) /\
     match entry_count fruit_state (str "banana") with
     | Some c => entry_count s' (str "banana") = Some (incr c) /\
                 (0 <= c < SIZE_MAX -> incr c = c + 1)
     | None => entry_count s' (str "banana") = Some 1
     end) /\
  (forall l, exists s'', insert_range l fruit_state = Ok true s'' /\
     size (self s'') = (size (self fruit_state) + length l)%nat).
Proof.
  split; [exact string_strict_total|].
  split; [exact (inv_sound _ fruit_state_inv)|].
  exact (insert_appends_row string_strict_total (str "banana") fruit_state
           (inv_sound _ fruit_state_inv)).
Defined.

Lemma insert_any_checks_type_witness :
  strict_total Z /\
  sound seven_state /\
  (insert_any (any_T 8) seven_state = insert 8 seven_state /\
   exists s', insert_any (any_T 8) seven_state = Ok true s').
Proof.
  split; [exact int_strict_total|].
  split; [exact (inv_sound _ seven_state_inv)|].
  exact (insert_any_checks_type int_strict_total (any_T 8) seven_state
           (inv_sound _ seven_state_inv)).
Defined.

Lemma out_of_range_throws_witness :
  (size (self seven_state) <= 3)%nat /\
  get 3 seven_state = Throw out_of_range seven_state /\
  remove 3 seven_state = Throw out_of_range seven_state /\
  (forall v, update 3 (any_T v) seven_state = Throw out_of_range seven_state) /\
  update 3 any_empty seven_state = Ok false seven_state /\
  (forall ty, update 3 (any_other ty) seven_state = Ok false seven_state).
Proof.
  assert (Hge : (size (self seven_state) <= 3)%nat) by (unfold seven_state, size; simpl; lia).
  split; [exact Hge|].
  exact (out_of_range_throws 3%nat seven_state Hge).
Defined.

Lemma fruit_files_in_range :
  Forall (fun o => (Z.to_nat o < length (file_values fruit_with_files "/tmp/col"))%nat)
    (file_ordinals fruit_with_files "/tmp/col").
Proof. vm_compute. repeat constructor. Qed.

Lemma load_appends_to_rows_witness :
  strict_total (list ascii) /\
  sound fruit_with_files /\
  Forall (fun o => (Z.to_nat o < length (file_values fruit_with_files "/tmp/col"))%nat)
    (file_ordinals fruit_with_files "/tmp/col") /\
  exists s', load "/tmp/col" fruit_with_files = Ok true s' /\
    size (self s')
    = (size (self fruit_with_files)
       + length (file_ordinals fruit_with_files "/tmp/col"))%nat /\
    (forall tid, (tid < size (self fruit_with_files))%nat ->
       row s' tid = row fruit_with_files tid) /\
    (forall i o, file_ordinals fruit_with_files "/tmp/col" !! i = Some o ->
       row s' (size (self fruit_with_files) + i)
       = snd <$> (file_values fruit_with_files "/tmp/col" !! Z.to_nat o)) /\
    (forall v c, entry_count fruit_with_files v = Some c ->
       entry_count s' v = Some c) /\
    (size (self s') = length (file_ordinals fruit_with_files "/tmp/col")
     <-> size (self fruit_with_files) = 0%nat).
Proof.
  split; [exact string_strict_total|].
  split; [exact (inv_sound fruit_state fruit_state_inv)|].
  split; [exact fruit_files_in_range|].
  exact (load_appends_to_rows string_strict_total "/tmp/col" fruit_with_files
           (inv_sound fruit_state fruit_state_inv) fruit_files_in_range).
Defined.

(** ** The further theorems at the example columns *)

Lemma update_rewrites_and_appends_witness :
  strict_total (list ascii) /\
  inv fruit_state /\
  (3 < size (self fruit_state))%nat /\
  Z.of_nat (size (self fruit_state)) < SIZE_MAX /\
  exists s', update 3 (any_T (str "apple")) fruit_state = Ok true s' /\
    rows s' = <[3%nat := Some (str "apple")]> (rows fruit_state)
              ++ [Some (str "apple")].
Proof.
  assert (Htid : (3 < size (self fruit_state))%nat) by (vm_compute; lia).
  assert (Hmax : Z.of_nat (size (self fruit_state)) < SIZE_MAX)
    by (vm_compute; reflexivity).
  split; [exact string_strict_total|]. split; [exact fruit_state_inv|].
  split; [exact Htid|]. split; [exact Hmax|].
  exact (update_rewrites_and_appends string_strict_total (str "apple") 3%nat
           fruit_state fruit_state_inv Htid Hmax).
Defined.

Lemma update_list_rewrites_and_appends_witness :
  strict_total (list ascii) /\
  inv fruit_state /\
  Forall (fun t => (t < size (self fruit_state))%nat) [0; 2]%nat /\
  Z.of_nat (size (self fruit_state) + length [0; 2]%nat) <= SIZE_MAX /\
  exists s', update_list [0; 2]%nat (any_T (str "date")) fruit_state
             = Ok true s' /\
    rows s' = foldl (fun l t => <[t := Some (str "date")]> l)
                (rows fruit_state) [0; 2]%nat
              ++ replicate (length [0; 2]%nat) (Some (str "date")).
Proof.
  assert (Hall : Forall (fun t => (t < size (self fruit_state))%nat) [0; 2]%nat)
    by (repeat constructor; vm_compute; lia).
  assert (Hmax : Z.of_nat (size (self fruit_state) + length [0; 2]%nat)
                 <= SIZE_MAX) by (vm_compute; discriminate).
  split; [exact string_strict_total|]. split; [exact fruit_state_inv|].
  split; [exact Hall|]. split; [exact Hmax|].
  exact (update_list_rewrites_and_appends string_strict_total (str "date")
           [0; 2]%nat fruit_state fruit_state_inv Hall Hmax).
Defined.

Lemma insert_range_appends_in_order_witness :
  strict_total (list ascii) /\
  sound fruit_state /\
  exists s', insert_range [str "kiwi"; str "apple"] fruit_state = Ok true s' /\
    rows s' = rows fruit_state ++ (Some <$> [str "kiwi"; str "apple"]).
Proof.
  split; [exact string_strict_total|].
  split; [exact (inv_sound _ fruit_state_inv)|].
  exact (insert_range_appends_in_order string_strict_total
           [str "kiwi"; str "apple"] fruit_state
           (inv_sound _ fruit_state_inv)).
Defined.

Lemma remove_list_deletes_in_turn_witness :
  inv fruit_state /\
  in_turn (size (self fruit_state)) [5; 0]%nat /\
  exists s', remove_list [5; 0]%nat fruit_state = Ok true s' /\
    rows s' = foldl (fun l t => delete t l) (rows fruit_state) [5; 0]%nat.
Proof.
  assert (Hturn : in_turn (size (self fruit_state)) [5; 0]%nat)
    by (vm_compute; lia).
  split; [exact fruit_state_inv|]. split; [exact Hturn|].
  exact (remove_list_deletes_in_turn [5; 0]%nat fruit_state fruit_state_inv
           Hturn).
Defined.

Lemma remove_list_ascending_pair_witness :
  inv fruit_state /\
  (1 + 2 < size (self fruit_state))%nat /\
  exists s', remove_list [1; (1 + 1)]%nat fruit_state = Ok true s' /\
    size (self s') = (size (self fruit_state) - 2)%nat /\
    (forall j, (j < 1)%nat -> row s' j = row fruit_state j) /\
    row s' 1 = row fruit_state (1 + 1) /\
    (forall j, (1 < j)%nat -> row s' j = row fruit_state (j + 2)).
Proof.
  assert (Ht : (1 + 2 < size (self fruit_state))%nat) by (vm_compute; lia).
  split; [exact fruit_state_inv|]. split; [exact Ht|].
  exact (remove_list_ascending_pair 1%nat fruit_state fruit_state_inv Ht).
Defined.

Lemma remove_list_stops_at_bad_tid_witness :
  inv fruit_state /\
  in_turn (size (self fruit_state)) [0%nat] /\
  (size (self fruit_state) - length [0%nat] <= 7)%nat /\
  exists s1, remove_list [0%nat] fruit_state = Ok true s1 /\
    rows s1 = foldl (fun l t => delete t l) (rows fruit_state) [0%nat] /\
    remove_list ([0%nat] ++ 7%nat :: [1%nat]) fruit_state
    = Throw out_of_range s1.
Proof.
  assert (Hturn : in_turn (size (self fruit_state)) [0%nat])
    by (vm_compute; lia).
  assert (Ht : (size (self fruit_state) - length [0%nat] <= 7)%nat)
    by (vm_compute; lia).
  split; [exact fruit_state_inv|]. split; [exact Hturn|]. split; [exact Ht|].
  exact (remove_list_stops_at_bad_tid [0%nat] 7%nat [1%nat] fruit_state
           fruit_state_inv Hturn Ht).
Defined.

Lemma remove_every_row_empties_witness :
  inv fruit_state /\
  exists s', remove_list (replicate (size (self fruit_state)) 0%nat) fruit_state
             = Ok true s' /\
    self s' = Column [] [].
Proof.
  split; [exact fruit_state_inv|].
  exact (remove_every_row_empties fruit_state fruit_state_inv).
Defined.

Lemma clearContent_erases_own_nodes_witness :
  sound fruit_state /\
  exists s', clearContent fruit_state = Ok true s' /\
    self s' = Column [] [] /\ disk s' = disk fruit_state /\
    (forall a, a ∈ _values (self fruit_state) -> live (mem s') a = None) /\
    (forall b, b ∉ _values (self fruit_state) ->
       live (mem s') b = live (mem fruit_state) b).
Proof.
  split; [exact (inv_sound _ fruit_state_inv)|].
  exact (clearContent_erases_own_nodes fruit_state
           (inv_sound _ fruit_state_inv)).
Defined.

Lemma copy_reads_like_source_witness :
  sound seven_state /\
  exists c s', copy seven_state = Ok c s' /\
    self s' = self seven_state /\ disk s' = disk seven_state /\
    rows s' = rows seven_state /\
    (forall w, entry_count s' w = entry_count seven_state w) /\
    rows (State (mem s') (disk s') c) = rows seven_state /\
    (forall w, entry_count (State (mem s') (disk s') c) w
               = entry_count seven_state w).
Proof.
  split; [exact (inv_sound _ seven_state_inv)|].
  exact (copy_reads_like_source seven_state (inv_sound _ seven_state_inv)).
Defined.

Lemma insert_then_remove_restores_witness :
  strict_total (list ascii) /\
  inv fruit_state /\
  Z.of_nat (size (self fruit_state)) < SIZE_MAX /\
  exists s1 s2, insert (str "date") fruit_state = Ok true s1 /\
    remove (size (self fruit_state)) s1 = Ok true s2 /\
    self s2 = self fruit_state /\ rows s2 = rows fruit_state /\
    forall w, entry_count s2 w = entry_count fruit_state w.
Proof.
  assert (Hmax : Z.of_nat (size (self fruit_state)) < SIZE_MAX)
    by (vm_compute; reflexivity).
  split; [exact string_strict_total|]. split; [exact fruit_state_inv|].
  split; [exact Hmax|].
  exact (insert_then_remove_restores string_strict_total (str "date")
           fruit_state fruit_state_inv Hmax).
Defined.

Lemma counts_add_up_to_size_witness :
  inv fruit_state /\
  foldr Z.add 0 (counts fruit_state) = Z.of_nat (size (self fruit_state)) /\
  (length (_values (self fruit_state)) <= size (self fruit_state))%nat.
Proof.
  split; [exact fruit_state_inv|].
  exact (counts_add_up_to_size fruit_state fruit_state_inv).
Defined.

Lemma subscript_reads_like_get_witness :
  sound seven_state /\ 32 <= 32 /\ INT_MIN <= 0 <= INT_MAX /\
  (0 <= 0 < Z.of_nat (size (self seven_state)) ->
   exists v, row seven_state (Z.to_nat 0) = Some v /\
     get (Z.to_nat 0) seven_state = Ok (any_T v) seven_state /\
     subscript 32 0 seven_state = Ok v seven_state) /\
  (Z.of_nat (size (self seven_state)) <= 0 ->
   subscript 32 0 seven_state = Throw out_of_range seven_state) /\
  (0 < 0 -> Z.of_nat (size (self seven_state)) <= 2 ^ 31 ->
   subscript 32 0 seven_state = Throw out_of_range seven_state).
Proof.
  assert (Hbits : 32 <= 32) by lia.
  assert (Hint : INT_MIN <= 0 <= INT_MAX) by (vm_compute; split; discriminate).
  split; [exact (inv_sound _ seven_state_inv)|].
  split; [exact Hbits|]. split; [exact Hint|].
  exact (subscript_reads_like_get 32 0 seven_state
           (inv_sound _ seven_state_inv) Hbits Hint).
Defined.

Lemma load_of_nothing_succeeds_witness :
  file_values fruit_state "/nowhere" = [] /\
  file_ordinals fruit_state "/nowhere" = [] /\
  load "/nowhere" fruit_state = Ok true fruit_state.
Proof.
  assert (Hv : file_values fruit_state "/nowhere" = []) by (vm_compute; reflexivity).
  assert (Ho : file_ordinals fruit_state "/nowhere" = []) by (vm_compute; reflexivity).
  split; [exact Hv|]. split; [exact Ho|].
  exact (load_of_nothing_succeeds "/nowhere" fruit_state Hv Ho).
Defined.

Lemma load_ordinal_out_of_bounds_witness :
  strict_total (list ascii) /\
  sound fruit_with_bad_ordinal /\
  Exists (fun o => (length (file_values fruit_with_bad_ordinal "/tmp/col")
                    <= Z.to_nat o)%nat)
    (file_ordinals fruit_with_bad_ordinal "/tmp/col") /\
  load "/tmp/col" fruit_with_bad_ordinal = UB.
Proof.
  assert (Hex : Exists (fun o => (length (file_values fruit_with_bad_ordinal
                                            "/tmp/col") <= Z.to_nat o)%nat)
                  (file_ordinals fruit_with_bad_ordinal "/tmp/col"))
    by (vm_compute; left; lia).
  split; [exact string_strict_total|].
  split; [exact (inv_sound fruit_state fruit_state_inv)|].
  split; [exact Hex|].
  exact (load_ordinal_out_of_bounds string_strict_total "/tmp/col"
           fruit_with_bad_ordinal (inv_sound fruit_state fruit_state_inv) Hex).
Defined.

Lemma store_returns_true_regardless_witness :
  strict_total (list ascii) /\
  inv fruit_state /\
  exists s1, store no_such_dir "/nonexistent_dir/col" fruit_state
             = Ok true s1 /\
    mem s1 = mem fruit_state /\ self s1 = self fruit_state /\
    (forall q, q <> file_name ("/nonexistent_dir/col" +:+ "_values") ->
       q <> file_name ("/nonexistent_dir/col" +:+ "_position") ->
       disk s1 !! q = disk fruit_state !! q) /\
    (writable no_such_dir ("/nonexistent_dir/col" +:+ "_values") ->
     writable no_such_dir ("/nonexistent_dir/col" +:+ "_position") ->
     is_Some (disk s1 !! file_name ("/nonexistent_dir/col" +:+ "_values")) /\
     is_Some (disk s1 !! file_name ("/nonexistent_dir/col" +:+ "_position"))) /\
    (unwritable no_such_dir ("/nonexistent_dir/col" +:+ "_values") ->
     unwritable no_such_dir ("/nonexistent_dir/col" +:+ "_position") ->
     disk s1 = disk fruit_state).
Proof.
  split; [exact string_strict_total|]. split; [exact fruit_state_inv|].
  exact (store_returns_true_regardless string_strict_total no_such_dir
           "/nonexistent_dir/col" fruit_state fruit_state_inv).
Defined.



Lemma entry_count_is_row_count_witness :
  strict_total (list ascii) /\
  inv fruit_state /\
  entry_count fruit_state (str "apple")
  = match holding fruit_state (str "apple") with
    | O => None
    | S _ => Some (Z.of_nat (holding fruit_state (str "apple")))
    end.
Proof.
  split; [exact string_strict_total|]. split; [exact fruit_state_inv|].
  exact (entry_count_is_row_count string_strict_total (str "apple")
           fruit_state fruit_state_inv).
Defined.

Lemma update_list_mistyped_witness :
  (forall v : Z, any_other "double" <> any_T v) /\
  update_list [0; 1]%nat (any_other "double") seven_state
  = Ok (bool_decide ([0; 1]%nat = [])) seven_state.
Proof.
  assert (Hty : forall v : Z, any_other "double" <> any_T v)
    by (intros v; discriminate).
  split; [exact Hty|].
  exact (update_list_mistyped [0; 1]%nat (any_other "double") seven_state Hty).
Defined.

Lemma update_list_stops_at_bad_tid_witness :
  strict_total (list ascii) /\
  inv fruit_state /\
  in_turn_growing (size (self fruit_state)) [0; 6]%nat /\
  Z.of_nat (size (self fruit_state) + length [0; 6]%nat) <= SIZE_MAX /\
  (size (self fruit_state) + length [0; 6]%nat <= 100)%nat /\
  exists s1, update_list [0; 6]%nat (any_T (str "date")) fruit_state
             = Ok true s1 /\
    rows s1 = foldl (fun l t' => <[t' := Some (str "date")]> l
                                 ++ [Some (str "date")])
                (rows fruit_state) [0; 6]%nat /\
    update_list ([0; 6]%nat ++ 100%nat :: [1%nat]) (any_T (str "date"))
      fruit_state
    = Throw out_of_range s1.
Proof.
  assert (Hturn : in_turn_growing (size (self fruit_state)) [0; 6]%nat)
    by (vm_compute; lia).
  assert (Hmax : Z.of_nat (size (self fruit_state) + length [0; 6]%nat)
                 <= SIZE_MAX) by (vm_compute; discriminate).
  assert (Ht : (size (self fruit_state) + length [0; 6]%nat <= 100)%nat)
    by (vm_compute; lia).
  split; [exact string_strict_total|]. split; [exact fruit_state_inv|].
  split; [exact Hturn|]. split; [exact Hmax|]. split; [exact Ht|].
  exact (update_list_stops_at_bad_tid string_strict_total (str "date")
           [0; 6]%nat 100%nat [1%nat] fruit_state fruit_state_inv Hturn Hmax
           Ht).
Defined.
